(** * Minimal chess: rules engine and search opponent

    A shallow embedding of [chess.js] (class [ChessGame]) and of the AI
    script (class [ChessAI]) together with the properties of the
    specification that are stated about them.

    Modelling conventions.
    - Coordinates are JavaScript numbers used as array indices; they are
      integers here ([Z]), so the sentinel [-1] of [isKingInCheck] and any
      other out-of-range index can be written down.  A JavaScript number
      is a double: [Z] is exact for it between -2^53 and 2^53, the safe
      integers.  Only one place of the source goes wrong beyond them, the
      column loop of [isValidRookMove], whose counter stops advancing at
      2^53; what is stated about that loop bounds the columns.
    - [this.board] is an array of eight row arrays.  The outer array is built
      once by [createBoard] and no statement ever adds or removes a row, so
      [this.board[r]] is [undefined] exactly when [r] is not one of 0..7:
      indexing it further raises a [TypeError].  A row is an object with
      integer keys; reading a missing key yields [undefined] and writing one
      creates it.  The board is therefore a finite map from (row, column) to
      pieces, guarded by [validRow]; a missing key stands for both [null] and
      [undefined], which the source only ever tests for truthiness.
    - Pieces are objects [{type, color}].  Every square holds an object of
      its own (created by [createBoard], or a spread copy that [movePiece]
      took and [undoMove] put back), and no entry of the history shares an
      object with the board, so squares are modelled by value; the one
      in-place mutation, [piece.type = 'queen'], is written as a store to
      the square that holds the object.
    - A raised [TypeError] is an explicit outcome: [None] for the read-only
      methods, [Throw] (carrying the state at the moment of the throw) for
      the methods that write.
    - The script of class [ChessAI] binds the name [eval] inside the class
      body, which is strict code: the script is refused when it is read, the
      class is never defined, and no method of it can be called.  The
      bodies of the methods are kept in [Module ChessAI] as the source
      writes them; the methods as the program can call them raise.
    - [Math.random()] is an input, and so is what the source computes from
      it in floating point: the method bodies that use it take the value of
      [Math.floor(Math.random() * moves.length)] and the outcome of
      [Math.random() < 0.8] as arguments.
    - DOM calls ([updateStatus], [renderBoard], [highlightCheck], the undo
      button) have no effect on the game state and are left out. *)

From stdpp Require Import base option list list_numbers strings gmap fin_maps sorting.
From Stdlib Require Import ZArith Lia.

#[local] Open Scope Z_scope.

(** ** Data model *)

Inductive Color := White | Black.

Inductive PieceType := Pawn | Rook | Knight | Bishop | Queen | King.

Record Piece := mkPiece { type : PieceType; color : Color }.

#[global] Instance Color_eq_dec : EqDecision Color.
Proof. solve_decision. Defined.

#[global] Instance PieceType_eq_dec : EqDecision PieceType.
Proof. solve_decision. Defined.

#[global] Instance Piece_eq_dec : EqDecision Piece.
Proof. solve_decision. Defined.

(** [null] or a piece. *)
Abbreviation Square := (option Piece).

Abbreviation Board := (gmap (Z * Z) Piece).

(** [color === 'white' ? 'black' : 'white'] *)
Definition opponentOf (c : Color) : Color :=
  match c with White => Black | Black => White end.

Definition validRow (r : Z) : bool := (0 <=? r) && (r <? 8).

(** [this.board[r][c]] as an expression: [None] is the [TypeError] raised
    when [this.board[r]] is [undefined]. *)
Definition getSq (b : Board) (r c : Z) : option Square :=
  if validRow r then Some (b !! (r, c)) else None.

(** [this.board[r][c] = v] *)
Definition setSq (b : Board) (r c : Z) (v : Square) : option Board :=
  if validRow r then Some (partial_alter (λ _, v) (r, c) b) else None.

(** Truthiness of a square. *)
Definition occupied (s : Square) : bool :=
  match s with Some _ => true | None => false end.

(** ** Loops

    [for] loops whose body may [return] (or [break] with a value): the body
    yields [Some v] to leave the loop with [v], [None] to go on. *)
Section Loops.

Context {M : Type → Type} `{!MRet M, !MBind M}.

Fixpoint forEach {I A} (xs : list I) (body : I → M (option A)) : M (option A) :=
  match xs with
  | [] => mret None
  | x :: rest =>
      r ← body x;
      match r with
      | Some v => mret (Some v)
      | None => forEach rest body
      end
  end.

(** Loops that only update local variables [s]. *)
Fixpoint foldM {I S} (xs : list I) (body : I → S → M S) (s : S) : M S :=
  match xs with
  | [] => mret s
  | x :: rest => s' ← body x s; foldM rest body s'
  end.

End Loops.

(** [for (let i = lo; i < hi; i++)] *)
Definition range (lo hi : Z) : list Z := seqZ lo (hi - lo).

Definition range8 : list Z := range 0 8.

Arguments range : simpl never.
Arguments range8 : simpl never.

(** ** Board set-up *)

Definition backRowPieces : list PieceType :=
  [Rook; Knight; Bishop; Queen; King; Bishop; Knight; Rook].

Definition createBoard : Board :=
  let board : Board := ∅ in
  let board :=
    foldl (λ (b : Board) i,
             <[(6, i) := mkPiece Pawn White]> (<[(1, i) := mkPiece Pawn Black]> b))
          board range8 in
  let board :=
    foldl (λ (b : Board) i,
             match backRowPieces !! Z.to_nat i with
             | Some t => <[(7, i) := mkPiece t White]> (<[(0, i) := mkPiece t Black]> b)
             | None => b
             end)
          board range8 in
  board.

(** ** Piece rules *)

(** [a && e] where [e] reads the board. *)
Definition andThen (a : bool) (e : option bool) : option bool :=
  if a then e else Some false.

(** The path loops of the rook and the bishop: [true] as soon as one of the
    squares is occupied. *)
Definition anyOccupied (b : Board) (sqs : list (Z * Z)) : option bool :=
  r ← forEach sqs (λ '(r, c), s ← getSq b r c;
                               Some (if occupied s then Some true else None));
  Some (default false r).

Definition isValidPawnMove (b : Board) (fromRow fromCol toRow toCol : Z) : option bool :=
  s ← getSq b fromRow fromCol;
  piece ← s;
  let direction := match color piece with White => -1 | Black => 1 end in
  one ← andThen ((fromCol =? toCol) && (toRow =? fromRow + direction))
          (t ← getSq b toRow toCol; Some (negb (occupied t)));
  if one : bool then Some true else
  let startRow := match color piece with White => 6 | Black => 1 end in
  two ← andThen ((fromCol =? toCol) && (fromRow =? startRow)
                  && (toRow =? fromRow + 2 * direction))
          (m ← getSq b (fromRow + direction) fromCol;
           andThen (negb (occupied m))
             (t ← getSq b toRow toCol; Some (negb (occupied t))));
  if two : bool then Some true else
  cap ← andThen ((Z.abs (fromCol - toCol) =? 1) && (toRow =? fromRow + direction))
          (t ← getSq b toRow toCol;
           andThen (occupied t)
             (t' ← getSq b toRow toCol;
              q ← t';
              Some (negb (bool_decide (color q = color piece)))));
  if cap : bool then Some true else Some false.

(** The counter of each loop is a column or a row.  For columns between
    -2^53 and 2^53 the loop below is the loop of the source; beyond them
    [col++] stops advancing in the source and the call does not end, which
    this definition does not show. *)
Definition isValidRookMove (b : Board) (fromRow fromCol toRow toCol : Z) : option bool :=
  if negb (fromRow =? toRow) && negb (fromCol =? toCol) then Some false else
  blocked ←
    (if fromRow =? toRow then
       let start := Z.min fromCol toCol in
       let end_ := Z.max fromCol toCol in
       anyOccupied b ((λ c, (fromRow, c)) <$> range (start + 1) end_)
     else
       let start := Z.min fromRow toRow in
       let end_ := Z.max fromRow toRow in
       anyOccupied b ((λ r, (r, fromCol)) <$> range (start + 1) end_));
  Some (negb blocked).

Definition isValidKnightMove (fromRow fromCol toRow toCol : Z) : bool :=
  let rowDiff := Z.abs (fromRow - toRow) in
  let colDiff := Z.abs (fromCol - toCol) in
  ((rowDiff =? 2) && (colDiff =? 1)) || ((rowDiff =? 1) && (colDiff =? 2)).

Definition isValidBishopMove (b : Board) (fromRow fromCol toRow toCol : Z) : option bool :=
  let rowDiff := Z.abs (fromRow - toRow) in
  let colDiff := Z.abs (fromCol - toCol) in
  if negb (rowDiff =? colDiff) then Some false else
  let rowDirection := if fromRow <? toRow then 1 else -1 in
  let colDirection := if fromCol <? toCol then 1 else -1 in
  blocked ← anyOccupied b ((λ i, (fromRow + i * rowDirection, fromCol + i * colDirection))
                             <$> range 1 rowDiff);
  Some (negb blocked).

Definition isValidQueenMove (b : Board) (fromRow fromCol toRow toCol : Z) : option bool :=
  r ← isValidRookMove b fromRow fromCol toRow toCol;
  if r : bool then Some true else isValidBishopMove b fromRow fromCol toRow toCol.

Definition isValidKingMove (fromRow fromCol toRow toCol : Z) : bool :=
  let rowDiff := Z.abs (fromRow - toRow) in
  let colDiff := Z.abs (fromCol - toCol) in
  (rowDiff <=? 1) && (colDiff <=? 1).

Definition isValidMove (b : Board) (fromRow fromCol toRow toCol : Z) : option bool :=
  s ← getSq b fromRow fromCol;
  match s with
  | None => Some false
  | Some piece =>
      targetPiece ← getSq b toRow toCol;
      if match targetPiece with
         | Some t => bool_decide (color t = color piece)
         | None => false
         end
      then Some false
      else
        match type piece with
        | Pawn => isValidPawnMove b fromRow fromCol toRow toCol
        | Rook => isValidRookMove b fromRow fromCol toRow toCol
        | Knight => Some (isValidKnightMove fromRow fromCol toRow toCol)
        | Bishop => isValidBishopMove b fromRow fromCol toRow toCol
        | Queen => isValidQueenMove b fromRow fromCol toRow toCol
        | King => Some (isValidKingMove fromRow fromCol toRow toCol)
        end
  end.

(** ** Check detection *)

Definition isKingOf (color0 : Color) (s : Square) : bool :=
  match s with
  | Some piece => bool_decide (type piece = King) && bool_decide (color piece = color0)
  | None => false
  end.

(** The first loop nest of [isKingInCheck]: the king's position, or the
    sentinel (-1, -1). *)
Definition findKing (b : Board) (color0 : Color) : option (Z * Z) :=
  r ← forEach range8 (λ row,
         forEach range8 (λ col,
           s ← getSq b row col;
           Some (if isKingOf color0 s then Some (row, col) else None)));
  Some (default (-1, -1) r).

Definition isKingInCheck (b : Board) (color0 : Color) : option bool :=
  '(kingRow, kingCol) ← findKing b color0;
  let opponentColor := opponentOf color0 in
  r ← forEach range8 (λ row,
         forEach range8 (λ col,
           s ← getSq b row col;
           match s with
           | Some piece =>
               if bool_decide (color piece = opponentColor) then
                 v ← isValidMove b row col kingRow kingCol;
                 Some (if v : bool then Some true else None)
               else Some None
           | None => Some None
           end));
  Some (default false r).

(** ** Game state *)

Record Move := mkMove { fromRow : Z; fromCol : Z; toRow : Z; toCol : Z }.

(** An entry of [moveHistory].  [piece] is the spread copy taken before a
    promotion is applied; [None] there stands for the empty object that
    spreading [null] gives (the application raises right after pushing it,
    and undoing such an entry is outside the model). *)
Module History.

Record entry := mkEntry {
  fromRow : Z; fromCol : Z; toRow : Z; toCol : Z;
  piece : Square; capturedPiece : Square }.

End History.

Inductive GameMode := Human | Computer.

Record Game := mkGame {
  board : Board;
  currentPlayer : Color;
  gameOver : bool;
  moveHistory : list History.entry;
  gameMode : GameMode }.

Definition setBoard (b : Board) (g : Game) : Game :=
  mkGame b (currentPlayer g) (gameOver g) (moveHistory g) (gameMode g).
Definition setCurrentPlayer (c : Color) (g : Game) : Game :=
  mkGame (board g) c (gameOver g) (moveHistory g) (gameMode g).
Definition setGameOver (v : bool) (g : Game) : Game :=
  mkGame (board g) (currentPlayer g) v (moveHistory g) (gameMode g).
Definition setMoveHistory (h : list History.entry) (g : Game) : Game :=
  mkGame (board g) (currentPlayer g) (gameOver g) h (gameMode g).

(** ** Methods that write: state and exceptions *)

Inductive Outcome (A : Type) :=
  | Ret (a : A) (g : Game)
  | Throw (g : Game).
Arguments Ret {A} a g.
Arguments Throw {A} g.

Definition M (A : Type) : Type := Game → Outcome A.

#[global] Instance M_ret : MRet M := λ A a g, Ret a g.
#[global] Instance M_bind : MBind M := λ A B f m g,
  match m g with
  | Ret a g' => f a g'
  | Throw g' => Throw g'
  end.

(** The state in which a call ends, normally or not. *)
Definition finalState {A} (o : Outcome A) : Game :=
  match o with Ret _ g => g | Throw g => g end.

Definition gets {A} (f : Game → A) : M A := λ g, Ret (f g) g.
Definition modify (f : Game → Game) : M unit := λ g, Ret tt (f g).
Definition throw {A} : M A := λ g, Throw g.

(** A read-only method run on the current board. *)
Definition liftR {A} (f : Board → option A) : M A := λ g,
  match f (board g) with
  | Some a => Ret a g
  | None => Throw g
  end.

Definition readSq (r c : Z) : M Square := liftR (λ b, getSq b r c).

Definition writeSq (r c : Z) (v : Square) : M unit := λ g,
  match setSq (board g) r c v with
  | Some b' => Ret tt (setBoard b' g)
  | None => Throw g
  end.

(** ** Checkmate detection *)

Definition isCheckmate (color0 : Color) : M bool :=
  inCheck ← liftR (λ b, isKingInCheck b color0);
  if negb inCheck then mret false else
  r ← forEach range8 (λ fromRow,
       forEach range8 (λ fromCol,
         s ← readSq fromRow fromCol;
         match s with
         | Some piece =>
             if bool_decide (color piece = color0) then
               forEach range8 (λ toRow,
                 forEach range8 (λ toCol,
                   v ← liftR (λ b, isValidMove b fromRow fromCol toRow toCol);
                   if v : bool then
                     originalTarget ← readSq toRow toCol;
                     writeSq toRow toCol (Some piece);;
                     writeSq fromRow fromCol None;;
                     stillInCheck ← liftR (λ b, isKingInCheck b color0);
                     writeSq fromRow fromCol (Some piece);;
                     writeSq toRow toCol originalTarget;;
                     mret (if negb stillInCheck then Some false else None)
                   else mret None))
             else mret None
         | None => mret None
         end));
  mret (default true r).

(** ** Applying and undoing a move *)

Definition promote (p : Piece) (toRow : Z) : Piece :=
  if bool_decide (type p = Pawn) && ((toRow =? 0) || (toRow =? 7))
  then mkPiece Queen (color p) else p.

Definition movePiece (fromRow fromCol toRow toCol : Z) : M unit :=
  s ← readSq fromRow fromCol;
  capturedPiece ← readSq toRow toCol;
  modify (λ g, setMoveHistory
                 (moveHistory g ++
                    [History.mkEntry fromRow fromCol toRow toCol s capturedPiece]) g);;
  match s with
  | None => throw
  | Some piece0 =>
      let piece := promote piece0 toRow in
      writeSq fromRow fromCol (Some piece);;
      writeSq toRow toCol (Some piece);;
      writeSq fromRow fromCol None;;
      modify (λ g, setCurrentPlayer (opponentOf (currentPlayer g)) g);;
      player ← gets currentPlayer;
      isCheck ← liftR (λ b, isKingInCheck b player);
      isMate ← (if isCheck : bool then isCheckmate player else mret false);
      if isMate : bool then modify (setGameOver true) else mret tt
  end.

(** The body of the loop of [undoMove], after the emptiness test: pop the
    last entry and put its two squares back.  For an entry whose [piece] is
    [None] (the empty object a failed [movePiece] pushed) the source puts
    that object, which is truthy, on the origin; the board this definition
    gives for such an entry is not the board of the source, and nothing is
    stated about it. *)
Definition undoLast (lastMove : History.entry) (rest : list History.entry) : M unit :=
  modify (setMoveHistory rest);;
  writeSq (History.fromRow lastMove) (History.fromCol lastMove) (History.piece lastMove);;
  writeSq (History.toRow lastMove) (History.toCol lastMove) (History.capturedPiece lastMove);;
  modify (λ g, setCurrentPlayer (opponentOf (currentPlayer g)) g).

(** [moveHistory.pop()] splits the array into its last entry and the rest. *)
Definition popLast {A} (l : list A) : option (A * list A) :=
  match last l with
  | Some x => Some (x, removelast l)
  | None => None
  end.

Definition undoMove : M unit :=
  h ← gets moveHistory;
  if bool_decide (h = []) then mret tt else
  mode ← gets gameMode;
  let movesToUndo := match mode with Computer => 2 | Human => 1 end in
  forEach (range 0 movesToUndo) (λ _,
    h ← gets moveHistory;
    match popLast h with
    | None => mret (Some tt)
    | Some (lastMove, rest) => undoLast lastMove rest;; mret None
    end);;
  modify (setGameOver false).

(** ** The search opponent: class [ChessAI] *)

(** JavaScript numbers as the search uses them: integer scores and the two
    infinities that initialise the running bounds. *)
Inductive Num := NegInf | Fin (z : Z) | PosInf.

Definition Num_leb (x y : Num) : bool :=
  match x, y with
  | NegInf, _ => true
  | _, PosInf => true
  | Fin a, Fin b => a <=? b
  | _, _ => false
  end.

(** [Math.max], [Math.min], [>] *)
Definition Num_max (x y : Num) : Num := if Num_leb x y then y else x.
Definition Num_min (x y : Num) : Num := if Num_leb x y then x else y.
Definition Num_gtb (x y : Num) : bool := negb (Num_leb x y).

Inductive Difficulty := Easy | Medium | Hard | OtherDifficulty.

(** [moves[randomIndex]] *)
Definition pick {A} (l : list A) (i : Z) : option A :=
  if i <? 0 then None else l !! Z.to_nat i.

(** The bodies of the methods, as the source writes them.  Whether the
    program can call them is settled after the module. *)
Module ChessAI.

Definition getPieceValue (pieceType : PieceType) : Z :=
  match pieceType with
  | Pawn => 1
  | Knight => 3
  | Bishop => 3
  | Rook => 5
  | Queen => 9
  | King => 100
  end.

Definition getAllLegalMoves (color0 : Color) : M (list Move) :=
  foldM range8 (λ fromRow moves,
    foldM range8 (λ fromCol moves,
      s ← readSq fromRow fromCol;
      match s with
      | Some piece =>
          if bool_decide (color piece = color0) then
            foldM range8 (λ toRow moves,
              foldM range8 (λ toCol moves,
                v ← liftR (λ b, isValidMove b fromRow fromCol toRow toCol);
                if v : bool then
                  originalTarget ← readSq toRow toCol;
                  writeSq toRow toCol (Some piece);;
                  writeSq fromRow fromCol None;;
                  kingInCheck ← liftR (λ b, isKingInCheck b color0);
                  writeSq fromRow fromCol (Some piece);;
                  writeSq toRow toCol originalTarget;;
                  mret (if negb kingInCheck
                        then moves ++ [mkMove fromRow fromCol toRow toCol]
                        else moves)
                else mret moves) moves) moves
          else mret moves
      | None => mret moves
      end) moves) [].

Definition evaluatePosition (aiColor : Color) : M Z :=
  score ← foldM range8 (λ row score,
             foldM range8 (λ col score,
               s ← readSq row col;
               mret (match s with
                     | Some piece =>
                         let pieceValue := getPieceValue (type piece) in
                         if bool_decide (color piece = aiColor)
                         then score + pieceValue
                         else score - pieceValue
                     | None => score
                     end)) score) 0;
  let opponentColor := opponentOf aiColor in
  oppInCheck ← liftR (λ b, isKingInCheck b opponentColor);
  score ← (if oppInCheck : bool then
             mate ← isCheckmate opponentColor;
             mret (if mate : bool then score + 50 + 1000 else score + 50)
           else mret score);
  ownInCheck ← liftR (λ b, isKingInCheck b aiColor);
  score ← (if ownInCheck : bool then
             mate ← isCheckmate aiColor;
             mret (if mate : bool then score - 50 - 1000 else score - 50)
           else mret score);
  mret score.

(** The block that [minimax] (in both branches), [getHardMove] and the
    callback of [getMediumMove] repeat verbatim around what they evaluate:
    save the two squares, try the move, evaluate, undo the move. *)
Definition withMove {A} (move : Move) (inner : M A) : M A :=
  originalTarget ← readSq (toRow move) (toCol move);
  movingPiece ← readSq (fromRow move) (fromCol move);
  writeSq (toRow move) (toCol move) movingPiece;;
  writeSq (fromRow move) (fromCol move) None;;
  result ← inner;
  writeSq (fromRow move) (fromCol move) movingPiece;;
  writeSq (toRow move) (toCol move) originalTarget;;
  mret result.

(** The [for (const move of moves)] loop of the maximizing branch;
    [child alpha] is the recursive call. *)
Definition maximize (child : Num → M Num) (beta : Num)
    : list Move → Num → Num → M Num :=
  fix loop (ms : list Move) (maxEval alpha : Num) {struct ms} : M Num :=
    match ms with
    | [] => mret maxEval
    | move :: rest =>
        eval ← withMove move (child alpha);
        let maxEval := Num_max maxEval eval in
        let alpha := Num_max alpha eval in
        if Num_leb beta alpha then mret maxEval else loop rest maxEval alpha
    end.

(** The loop of the minimizing branch; [child beta] is the recursive call. *)
Definition minimize (child : Num → M Num) (alpha : Num)
    : list Move → Num → Num → M Num :=
  fix loop (ms : list Move) (minEval beta : Num) {struct ms} : M Num :=
    match ms with
    | [] => mret minEval
    | move :: rest =>
        eval ← withMove move (child beta);
        let minEval := Num_min minEval eval in
        let beta := Num_min beta eval in
        if Num_leb beta alpha then mret minEval else loop rest minEval beta
    end.

(** [depth] counts down from the 3 of [getHardMove] by [depth - 1]; it is a
    natural number here. *)
Fixpoint minimax (depth : nat) (alpha beta : Num) (isMaximizing : bool)
    (aiColor : Color) {struct depth} : M Num :=
  match depth with
  | O => score ← evaluatePosition aiColor; mret (Fin score)
  | S depth' =>
      over ← gets gameOver;
      if over : bool then (score ← evaluatePosition aiColor; mret (Fin score)) else
      let currentColor := if isMaximizing then aiColor else opponentOf aiColor in
      moves ← getAllLegalMoves currentColor;
      if bool_decide (moves = []) then
        inCheck ← liftR (λ b, isKingInCheck b currentColor);
        mret (if inCheck : bool
              then (if isMaximizing then Fin (-1000) else Fin 1000)
              else Fin 0)
      else if isMaximizing then
        maximize (λ alpha, minimax depth' alpha beta false aiColor) beta
          moves NegInf alpha
      else
        minimize (λ beta, minimax depth' alpha beta true aiColor) alpha
          moves PosInf beta
  end.

(** [randomIndex] is the value of
    [Math.floor(Math.random() * moves.length)]. *)
Definition getRandomMove (randomIndex : Z) (aiColor : Color) : M (option Move) :=
  moves ← getAllLegalMoves aiColor;
  if bool_decide (moves = []) then mret None else
  mret (pick moves randomIndex).

(** The callback of [moves.map] in [getMediumMove]. *)
Definition scoreMove (aiColor : Color) (move : Move) : M (Move * Z) :=
  let score := 0 in
  targetPiece ← readSq (toRow move) (toCol move);
  let score := match targetPiece with
               | Some t => score + getPieceValue (type t)
               | None => score
               end in
  let opponentColor := opponentOf aiColor in
  givesCheck ← withMove move (liftR (λ b, isKingInCheck b opponentColor));
  let score := if givesCheck : bool then score + 10 else score in
  mret (move, score).

(** [scoredMoves.sort((a, b) => b.score - a.score)]: the stable sort by
    descending score. *)
Fixpoint insertByScore (x : Move * Z) (l : list (Move * Z)) : list (Move * Z) :=
  match l with
  | [] => [x]
  | y :: rest => if snd y <=? snd x then x :: y :: rest else y :: insertByScore x rest
  end.

Definition sortByScore (l : list (Move * Z)) : list (Move * Z) :=
  foldr insertByScore [] l.

(** [below] is the outcome of [Math.random() < 0.8]. *)
Definition getMediumMove (below : bool) (randomIndex : Z) (aiColor : Color)
    : M (option Move) :=
  moves ← getAllLegalMoves aiColor;
  if bool_decide (moves = []) then mret None else
  scoredMoves ← foldM moves (λ move acc, sm ← scoreMove aiColor move;
                                          mret (acc ++ [sm])) [];
  let scoredMoves := sortByScore scoredMoves in
  if below then
    match scoredMoves with
    | best :: _ => mret (Some (fst best))
    | [] => throw
    end
  else mret (pick moves randomIndex).

Definition getHardMove (aiColor : Color) : M (option Move) :=
  moves ← getAllLegalMoves aiColor;
  if bool_decide (moves = []) then mret None else
  '(bestMove, _) ←
    foldM moves (λ move '(bestMove, bestScore),
      score ← withMove move (minimax 3 NegInf PosInf false aiColor);
      mret (if Num_gtb score bestScore then (Some move, score)
            else (bestMove, bestScore)))
      (None, NegInf);
  mret bestMove.

Definition getBestMove (difficulty : Difficulty) (below : bool) (randomIndex : Z)
    (aiColor : Color) : M (option Move) :=
  match difficulty with
  | Easy => getRandomMove randomIndex aiColor
  | Medium => getMediumMove below randomIndex aiColor
  | Hard => getHardMove aiColor
  | OtherDifficulty => getRandomMove randomIndex aiColor
  end.

End ChessAI.

(** *** Reading the script

    The class is the whole content of its script, and a class body is
    strict code.  Strict code may bind neither [eval] nor [arguments]: a
    script that does is refused when it is read (an early [SyntaxError]),
    and none of it runs.  These are the names each method binds as a
    parameter, with [const] or with [let], in source order; [minimax] has
    [const eval = this.minimax(...)] in each of its two loops. *)
Definition boundNames : list (string * list string) :=
  [ ("constructor", ["difficulty"]);
    ("setDifficulty", ["difficulty"]);
    ("getBestMove", ["game"; "aiColor"]);
    ("getRandomMove", ["game"; "aiColor"; "moves"; "randomIndex"]);
    ("getMediumMove",
     ["game"; "aiColor"; "moves"; "scoredMoves"; "move"; "score"; "targetPiece";
      "originalTarget"; "movingPiece"; "opponentColor"; "a"; "b"; "randomIndex"]);
    ("getHardMove",
     ["game"; "aiColor"; "moves"; "bestMove"; "bestScore"; "move";
      "originalTarget"; "movingPiece"; "score"]);
    ("minimax",
     ["game"; "depth"; "alpha"; "beta"; "isMaximizing"; "aiColor"; "currentColor";
      "moves"; "maxEval"; "move"; "originalTarget"; "movingPiece"; "eval";
      "minEval"; "move"; "originalTarget"; "movingPiece"; "eval"]);
    ("evaluatePosition",
     ["game"; "aiColor"; "score"; "row"; "col"; "piece"; "pieceValue";
      "opponentColor"]);
    ("getPieceValue", ["pieceType"]);
    ("getAllLegalMoves",
     ["game"; "color"; "moves"; "fromRow"; "fromCol"; "piece"; "toRow"; "toCol";
      "originalTarget"; "kingInCheck"]) ].

Definition refusedInStrictCode (name : string) : bool :=
  String.eqb name "eval" || String.eqb name "arguments".

Definition earlySyntaxError : bool :=
  existsb (λ method, existsb refusedInStrictCode method.2) boundNames.

(** Whether the script ran, that is, whether the class [ChessAI] exists. *)
Definition classDefined : bool := negb earlySyntaxError.

(** A call of a method of the class from the program: [new ChessAI(...)]
    raises a [ReferenceError] when the class does not exist, so there is no
    object to call the method on, and [this.ai.getBestMove(...)] of
    [makeAIMove] raises a [TypeError]. *)
Definition called {A} (body : M A) : M A :=
  if classDefined then body else throw.

Definition getAllLegalMoves (color0 : Color) : M (list Move) :=
  called (ChessAI.getAllLegalMoves color0).

Definition evaluatePosition (aiColor : Color) : M Z :=
  called (ChessAI.evaluatePosition aiColor).

Definition minimax (depth : nat) (alpha beta : Num) (isMaximizing : bool)
    (aiColor : Color) : M Num :=
  called (ChessAI.minimax depth alpha beta isMaximizing aiColor).

Definition getRandomMove (randomIndex : Z) (aiColor : Color) : M (option Move) :=
  called (ChessAI.getRandomMove randomIndex aiColor).

Definition getMediumMove (below : bool) (randomIndex : Z) (aiColor : Color)
    : M (option Move) :=
  called (ChessAI.getMediumMove below randomIndex aiColor).

Definition getHardMove (aiColor : Color) : M (option Move) :=
  called (ChessAI.getHardMove aiColor).

Definition getBestMove (difficulty : Difficulty) (below : bool) (randomIndex : Z)
    (aiColor : Color) : M (option Move) :=
  called (ChessAI.getBestMove difficulty below randomIndex aiColor).

(** ** Notions the properties are stated with *)

(** The value with which a loop with early exit ends when its body is the
    function [f]: the first [Some] along the list. *)
Fixpoint firstSome {I A} (f : I → option A) (xs : list I) : option A :=
  match xs with
  | [] => None
  | x :: rest => match f x with Some v => Some v | None => firstSome f rest end
  end.

(** The board in the middle of a tentative move: the content of the origin
    stored at the destination, the origin emptied. *)
Definition tentative (b : Board) (fromRow fromCol toRow toCol : Z) : Board :=
  partial_alter (λ _, None) (fromRow, fromCol)
    (partial_alter (λ _, b !! (fromRow, fromCol)) (toRow, toCol) b).

Definition inBoard (r c : Z) : Prop := (0 ≤ r < 8) ∧ (0 ≤ c < 8).

(** The 64 squares in row-major order. *)
Definition squares8 : list (Z * Z) := r ← range8; c ← range8; [(r, c)].

(** Some square of the 8×8 grid holds a king of the colour. *)
Definition hasKing (b : Board) (c : Color) : Prop :=
  ∃ row col, inBoard row col ∧ isKingOf c (b !! (row, col)) = true.

(** The first king of the colour in row-major order, or (-1, -1). *)
Definition kingSquare (b : Board) (c : Color) : Z * Z :=
  default (-1, -1)
    (firstSome (λ row,
       firstSome (λ col, if isKingOf c (b !! (row, col)) then Some (row, col) else None)
         range8) range8).

(** The number of kings of the colour on the 8×8 grid. *)
Definition kingCount (b : Board) (c : Color) : nat :=
  length (filter (λ sq, isKingOf c (b !! sq) = true) squares8).

(** Pseudo-legal: accepted by [isValidMove] for a piece of the side. *)
Definition pseudoLegal (b : Board) (side : Color) (m : Move) : Prop :=
  inBoard (fromRow m) (fromCol m) ∧ inBoard (toRow m) (toCol m) ∧
  (∃ p, b !! (fromRow m, fromCol m) = Some p ∧ color p = side) ∧
  isValidMove b (fromRow m) (fromCol m) (toRow m) (toCol m) = Some true.

(** Legal: pseudo-legal, and the side's king is not in check once the move
    is tentatively applied. *)
Definition legalMove (b : Board) (side : Color) (m : Move) : Prop :=
  pseudoLegal b side m ∧
  isKingInCheck (tentative b (fromRow m) (fromCol m) (toRow m) (toCol m)) side
    = Some false.

Definition validB (b : Board) (fromRow fromCol toRow toCol : Z) : bool :=
  default false (isValidMove b fromRow fromCol toRow toCol).

Definition checkB (b : Board) (c : Color) : bool :=
  default false (isKingInCheck b c).

(** The legal moves as a list comprehension, origins then destinations in
    row-major order. *)
Definition legalMovesOf (b : Board) (side : Color) : list Move :=
  fromRow ← range8; fromCol ← range8;
  match b !! (fromRow, fromCol) with
  | Some piece =>
      if bool_decide (color piece = side) then
        toRow ← range8; toCol ← range8;
        if validB b fromRow fromCol toRow toCol
           && negb (checkB (tentative b fromRow fromCol toRow toCol) side)
        then [mkMove fromRow fromCol toRow toCol] else []
      else []
  | None => []
  end.

(** The value with which the loop nest of [isCheckmate] ends: [Some false]
    at the first move that escapes, [None] when none does. *)
Definition escapeSearch (b : Board) (side : Color) : option bool :=
  firstSome (λ fromRow,
    firstSome (λ fromCol,
      match b !! (fromRow, fromCol) with
      | Some piece =>
          if bool_decide (color piece = side) then
            firstSome (λ toRow,
              firstSome (λ toCol,
                if validB b fromRow fromCol toRow toCol
                then (if negb (checkB (tentative b fromRow fromCol toRow toCol) side)
                      then Some false else None)
                else None) range8) range8
          else None
      | None => None
      end) range8) range8.

(** Checkmate and stalemate as the glossary has them. *)
Definition checkmated (b : Board) (side : Color) : Prop :=
  isKingInCheck b side = Some true ∧ ∀ m, ¬ legalMove b side m.

Definition stalemated (b : Board) (side : Color) : Prop :=
  isKingInCheck b side = Some false ∧ ∀ m, ¬ legalMove b side m.

(** The board in the middle of the tentative move [m]. *)
Definition afterMove (b : Board) (m : Move) : Board :=
  tentative b (fromRow m) (fromCol m) (toRow m) (toCol m).

(** The board once [movePiece] has moved the piece [p] found on the origin. *)
Definition movedBoard (b : Board) (fromRow fromCol toRow toCol : Z) (p : Piece) : Board :=
  partial_alter (λ _, None) (fromRow, fromCol)
    (partial_alter (λ _, Some (promote p toRow)) (toRow, toCol)
       (partial_alter (λ _, Some (promote p toRow)) (fromRow, fromCol) b)).

(** The entry [movePiece] pushes. *)
Definition entryOf (b : Board) (fromRow fromCol toRow toCol : Z) : History.entry :=
  History.mkEntry fromRow fromCol toRow toCol
    (b !! (fromRow, fromCol)) (b !! (toRow, toCol)).

(** The game once [movePiece] has pushed the entry, moved the piece and
    passed the turn, before it looks for check. *)
Definition applied (g : Game) (fromRow fromCol toRow toCol : Z) (p : Piece) : Game :=
  mkGame (movedBoard (board g) fromRow fromCol toRow toCol p)
         (opponentOf (currentPlayer g))
         (gameOver g)
         (moveHistory g ++ [entryOf (board g) fromRow fromCol toRow toCol])
         (gameMode g).

(** The opening moves of a side on the initial board: each pawn one or two
    squares straight ahead, each knight to the third rank of its side. *)
Definition pawnPush (side : Color) (fromRow fromCol toRow toCol : Z) : bool :=
  match side with
  | White => (fromRow =? 6) && (toCol =? fromCol) && ((toRow =? 5) || (toRow =? 4))
  | Black => (fromRow =? 1) && (toCol =? fromCol) && ((toRow =? 2) || (toRow =? 3))
  end.

Definition knightDevelopment (side : Color) (fromRow fromCol toRow toCol : Z) : bool :=
  ((fromCol =? 1) || (fromCol =? 6)) && (Z.abs (toCol - fromCol) =? 1) &&
  match side with
  | White => (fromRow =? 7) && (toRow =? 5)
  | Black => (fromRow =? 0) && (toRow =? 2)
  end.

Definition openingMove (side : Color) (fromRow fromCol toRow toCol : Z) : bool :=
  pawnPush side fromRow fromCol toRow toCol
  || knightDevelopment side fromRow fromCol toRow toCol.

(** All 4096 coordinate pairs. *)
Definition allPairs : list (Z * Z * (Z * Z)) :=
  from ← squares8; to ← squares8; [(from, to)].

Definition accepted (b : Board) (p : Z * Z * (Z * Z)) : bool :=
  validB b p.1.1 p.1.2 p.2.1 p.2.2.

(** A method leaves the game as it found it whenever it returns. *)
Definition restores {A} (m : M A) (g : Game) : Prop :=
  ∀ a g', m g = Ret a g' → g' = g.

(** ** Sample positions *)

Definition initialGame : Game := mkGame createBoard White false [] Computer.

(** White: king h1, rook b8.  Black: king a8, which the rook attacks. *)
Definition kingEnPrise : Board :=
  <[(7, 7) := mkPiece King White]>
    (<[(0, 1) := mkPiece Rook White]> (<[(0, 0) := mkPiece King Black]> ∅)).

(** White: king h1, queen h6.  Black: king a8.  The queen going to b6
    leaves Black without a legal move and not in check. *)
Definition beforeStalemate : Board :=
  <[(7, 7) := mkPiece King White]>
    (<[(2, 7) := mkPiece Queen White]> (<[(0, 0) := mkPiece King Black]> ∅)).

Definition beforeStalemateGame : Game := mkGame beforeStalemate White false [] Human.

(** The position the queen's move leads to, Black to move. *)
Definition stalemateGame : Game :=
  mkGame (<[(7, 7) := mkPiece King White]>
            (<[(2, 1) := mkPiece Queen White]> (<[(0, 0) := mkPiece King Black]> ∅)))
         Black false [] Human.

(** White: king h1, pawn a7.  Black: king h8, rook b8, which the pawn can
    take while promoting. *)
Definition promotionCapture : Board :=
  <[(7, 7) := mkPiece King White]>
    (<[(1, 0) := mkPiece Pawn White]>
       (<[(0, 1) := mkPiece Rook Black]> (<[(0, 7) := mkPiece King Black]> ∅))).

Definition promotionCaptureGame : Game := mkGame promotionCapture White false [] Human.



(** ** Further notions *)

(** The side to move is White exactly when an even number of moves is on
    the history. *)
Definition turnMatchesHistory (g : Game) : Prop :=
  currentPlayer g = if Nat.even (length (moveHistory g)) then White else Black.

(** The rows an entry of the history names are rows of the grid. *)
Definition entryOnGrid (e : History.entry) : Prop :=
  (0 ≤ History.fromRow e < 8) ∧ (0 ≤ History.toRow e < 8).

(** The board once an entry has been undone. *)
Definition undoneBoard (b : Board) (e : History.entry) : Board :=
  partial_alter (λ _, History.capturedPiece e) (History.toRow e, History.toCol e)
    (partial_alter (λ _, History.piece e) (History.fromRow e, History.fromCol e) b).

(** The integers a JavaScript number holds exactly. *)
Definition safeInteger (n : Z) : Prop := - 2 ^ 53 < n < 2 ^ 53.

(** The squares strictly between the two ends of a rook's move, along the
    row or along the column. *)
Definition rookPath (fromRow fromCol toRow toCol r c : Z) : Prop :=
  (r = fromRow ∧ fromRow = toRow ∧ Z.min fromCol toCol < c < Z.max fromCol toCol)
  ∨ (c = fromCol ∧ fromCol = toCol ∧ Z.min fromRow toRow < r < Z.max fromRow toRow).

(** The squares strictly between the two ends of a bishop's move. *)
Definition bishopPath (fromRow fromCol toRow toCol r c : Z) : Prop :=
  ∃ i, 0 < i < Z.abs (toRow - fromRow)
       ∧ r = fromRow + i * Z.sgn (toRow - fromRow)
       ∧ c = fromCol + i * Z.sgn (toCol - fromCol).

(** The moves of a pawn [p] standing on the origin: one step ahead onto an
    empty square, two steps ahead from the starting row over an empty square
    onto an empty square, one step ahead diagonally onto a piece of the other
    colour. *)
Definition pawnDirection (p : Piece) : Z :=
  match color p with White => -1 | Black => 1 end.

Definition pawnStartRow (p : Piece) : Z :=
  match color p with White => 6 | Black => 1 end.

Definition pawnRule (b : Board) (p : Piece) (fromRow fromCol toRow toCol : Z) : Prop :=
  (fromCol = toCol ∧ toRow = fromRow + pawnDirection p ∧ b !! (toRow, toCol) = None)
  ∨ (fromCol = toCol ∧ fromRow = pawnStartRow p
     ∧ toRow = fromRow + 2 * pawnDirection p
     ∧ b !! (fromRow + pawnDirection p, fromCol) = None
     ∧ b !! (toRow, toCol) = None)
  ∨ (Z.abs (fromCol - toCol) = 1 ∧ toRow = fromRow + pawnDirection p
     ∧ ∃ q, b !! (toRow, toCol) = Some q ∧ color q ≠ color p).

(** The rule of each piece, and the moves [isValidMove] accepts. *)
Definition rookRule (b : Board) (fromRow fromCol toRow toCol : Z) : Prop :=
  (fromRow = toRow ∨ fromCol = toCol)
  ∧ ∀ r c, rookPath fromRow fromCol toRow toCol r c → b !! (r, c) = None.

Definition bishopRule (b : Board) (fromRow fromCol toRow toCol : Z) : Prop :=
  Z.abs (fromRow - toRow) = Z.abs (fromCol - toCol)
  ∧ ∀ r c, bishopPath fromRow fromCol toRow toCol r c → b !! (r, c) = None.

Definition knightRule (fromRow fromCol toRow toCol : Z) : Prop :=
  (Z.abs (fromRow - toRow) = 2 ∧ Z.abs (fromCol - toCol) = 1)
  ∨ (Z.abs (fromRow - toRow) = 1 ∧ Z.abs (fromCol - toCol) = 2).

Definition kingRule (fromRow fromCol toRow toCol : Z) : Prop :=
  Z.abs (fromRow - toRow) ≤ 1 ∧ Z.abs (fromCol - toCol) ≤ 1.

Definition pieceRule (b : Board) (p : Piece) (fromRow fromCol toRow toCol : Z) : Prop :=
  match type p with
  | Pawn => pawnRule b p fromRow fromCol toRow toCol
  | Rook => rookRule b fromRow fromCol toRow toCol
  | Knight => knightRule fromRow fromCol toRow toCol
  | Bishop => bishopRule b fromRow fromCol toRow toCol
  | Queen => rookRule b fromRow fromCol toRow toCol ∨ bishopRule b fromRow fromCol toRow toCol
  | King => kingRule fromRow fromCol toRow toCol
  end.

(** ** Selection, clicks and the computer's turn *)

#[global] Instance GameMode_eq_dec : EqDecision GameMode.
Proof. solve_decision. Defined.

(** [highlightValidMoves]: the squares that get the class [highlight], in
    the order in which they get it, the selected square first.  The board
    is written and put back around each test, as in [getAllLegalMoves]. *)
Definition highlightValidMoves (row col : Z) : M (list (Z * Z)) :=
  foldM range8 (λ r shown,
    foldM range8 (λ c shown,
      v ← liftR (λ b, isValidMove b row col r c);
      if v : bool then
        piece ← readSq row col;
        originalTarget ← readSq r c;
        writeSq r c piece;;
        writeSq row col None;;
        kingInCheck ← match piece with
                      | Some p => liftR (λ b, isKingInCheck b (color p))
                      | None => throw
                      end;
        writeSq row col piece;;
        writeSq r c originalTarget;;
        mret (if negb kingInCheck then shown ++ [(r, c)] else shown)
      else mret shown) shown) [(row, col)].

(** What the click handler works on besides the game: the selected piece
    with its square, the colour of the human player, the squares that carry
    the class [highlight], and the number of timers set for [makeAIMove]. *)
Record Session := mkSession {
  game : Game;
  selectedPiece : option (Z * Z * Piece);
  playerColor : Color;
  highlighted : list (Z * Z);
  aiTimers : nat }.

Definition setGame (g : Game) (s : Session) : Session :=
  mkSession g (selectedPiece s) (playerColor s) (highlighted s) (aiTimers s).
Definition setSelectedPiece (sel : option (Z * Z * Piece)) (s : Session) : Session :=
  mkSession (game s) sel (playerColor s) (highlighted s) (aiTimers s).
Definition setHighlighted (h : list (Z * Z)) (s : Session) : Session :=
  mkSession (game s) (selectedPiece s) (playerColor s) h (aiTimers s).
Definition setTimeout (s : Session) : Session :=
  mkSession (game s) (selectedPiece s) (playerColor s) (highlighted s) (S (aiTimers s)).

(** A handler ends with a session, or with an exception. *)
Inductive Handled :=
  | Finished (s : Session)
  | Raised.

(** A method of the game called from a handler. *)
Definition inGame {A} (m : M A) (s : Session) (k : A → Session → Handled) : Handled :=
  match m (game s) with
  | Ret a g => k a (setGame g s)
  | Throw _ => Raised
  end.

Definition handleSquareClick (row col : Z) (s : Session) : Handled :=
  if gameOver (game s)
     || (bool_decide (gameMode (game s) = Computer)
         && negb (bool_decide (currentPlayer (game s) = playerColor s)))
  then Finished s else
  inGame (readSq row col) s (λ piece s,
    let own := match piece with
               | Some p => bool_decide (color p = currentPlayer (game s))
               | None => false
               end in
    match selectedPiece s, piece with
    | None, Some p =>
        if own then
          let s := setSelectedPiece (Some (row, col, p)) s in
          inGame (highlightValidMoves row col) s (λ shown s,
            Finished (setHighlighted shown s))
        else Finished s
    | None, None => Finished s
    | Some (selRow, selCol, _), _ =>
        if (row =? selRow) && (col =? selCol) then
          Finished (setHighlighted [] (setSelectedPiece None s))
        else
          inGame (liftR (λ b, isValidMove b selRow selCol row col)) s (λ v s,
            if v : bool then
              inGame (movePiece selRow selCol row col) s (λ _ s,
                let s := setHighlighted [] (setSelectedPiece None s) in
                if bool_decide (gameMode (game s) = Computer) && negb (gameOver (game s))
                then Finished (setTimeout s)
                else Finished s)
            else
              match piece with
              | Some p =>
                  if own then
                    let s := setHighlighted [] (setSelectedPiece (Some (row, col, p)) s) in
                    inGame (highlightValidMoves row col) s (λ shown s,
                      Finished (setHighlighted shown s))
                  else Finished (setHighlighted [] (setSelectedPiece None s))
              | None => Finished (setHighlighted [] (setSelectedPiece None s))
              end)
    end).


(** The destinations [highlightValidMoves] marks for a piece of the side. *)
Definition destinations (b : Board) (row col : Z) (side : Color) : list (Z * Z) :=
  r ← range8; c ← range8;
  if validB b row col r c && negb (checkB (tentative b row col r c) side)
  then [(r, c)] else [].

(** The selection a handler may rely on: a piece of the player to move,
    standing on the selected square. *)
Definition selectionOK (s : Session) : Prop :=
  match selectedPiece s with
  | None => True
  | Some (r, c, p) =>
      (0 ≤ r < 8) ∧ board (game s) !! (r, c) = Some p
      ∧ color p = currentPlayer (game s)
  end.

(** White: king e1, rook e2.  Black: king a8, rook e8.  The white rook
    shields its king on the e-file. *)
Definition shieldingRook : Board :=
  <[(7, 4) := mkPiece King White]>
    (<[(6, 4) := mkPiece Rook White]>
       (<[(0, 4) := mkPiece Rook Black]> (<[(0, 0) := mkPiece King Black]> ∅))).

Definition shieldingRookSession : Session :=
  mkSession (mkGame shieldingRook White false [] Human)
            (Some (6, 4, mkPiece Rook White)) White [] 0.

Definition initialSession : Session := mkSession initialGame None White [] 0.

(** Two boards a piece of the colour [attacker] cannot tell apart: the same
    squares are occupied, by pieces of the same colours, the pieces of the
    colour [attacker] are the same, and the kings stand on the same
    squares. *)
Definition sameOutline (attacker : Color) (b b' : Board) : Prop :=
  ∀ k, color <$> (b' !! k) = color <$> (b !! k)
       ∧ (∀ p, b !! k = Some p → color p = attacker → b' !! k = Some p)
       ∧ (∀ c, isKingOf c (b' !! k) = isKingOf c (b !! k)).

(** * Properties *)

(** ** Coordinates and squares *)

Lemma validRow_true r : validRow r = true ↔ 0 ≤ r < 8.
Proof. unfold validRow. rewrite andb_true_iff, Z.leb_le, Z.ltb_lt. tauto. Qed.

Lemma elem_of_range lo hi x : x ∈ range lo hi ↔ lo ≤ x < hi.
Proof. unfold range. rewrite elem_of_seqZ. lia. Qed.

Lemma elem_of_range8 x : x ∈ range8 ↔ 0 ≤ x < 8.
Proof. apply elem_of_range. Qed.

Lemma range8_validRow x : x ∈ range8 → validRow x = true.
Proof. rewrite elem_of_range8, validRow_true. done. Qed.

Lemma elem_of_squares8 r c : (r, c) ∈ squares8 ↔ inBoard r c.
Proof.
  unfold squares8, inBoard. rewrite list_elem_of_bind. split.
  - intros (r' & Hin & Hr). apply list_elem_of_bind in Hin as (c' & Hin & Hc).
    apply list_elem_of_singleton in Hin. inversion Hin; subst.
    by rewrite <- !elem_of_range8.
  - intros [Hr Hc]. exists r. rewrite elem_of_range8. split; [|done].
    apply list_elem_of_bind. exists c. rewrite elem_of_range8.
    split; [|done]. by apply list_elem_of_singleton.
Qed.

Lemma getSq_valid (b : Board) r c : validRow r = true → getSq b r c = Some (b !! (r, c)).
Proof. unfold getSq. by intros ->. Qed.

Lemma getSq_Some (b : Board) r c s : getSq b r c = Some s → validRow r = true ∧ b !! (r, c) = s.
Proof. unfold getSq. destruct (validRow r); naive_solver. Qed.

Lemma setSq_valid (b : Board) r c v :
  validRow r = true → setSq b r c v = Some (partial_alter (λ _, v) (r, c) b).
Proof. unfold setSq. by intros ->. Qed.

(** ** The null move *)

Lemma isValidMove_same_square (b : Board) (row col : Z) :
  0 ≤ row < 8 → isValidMove b row col row col = Some false.
Proof.
  intros Hr. apply validRow_true in Hr.
  unfold isValidMove, getSq. rewrite Hr. simpl.
  destruct (b !! (row, col)) as [p|] eqn:Hp; simpl; [|done].
  by rewrite bool_decide_eq_true_2.
Qed.

(** C10: on every board, [isValidMove] from a square of the grid to the
    same square returns false, whatever stands there (an empty origin has
    no piece to move, and an occupied one makes the destination a square
    held by the mover's own side), although the king's rule taken alone
    allows the zero displacement. *)
Theorem isValidMove_null_move (b : Board) (row col : Z) :
  0 ≤ row < 8 →
  isValidMove b row col row col = Some false
  ∧ isValidKingMove row col row col = true.
Proof.
  intros Hr. split; [by apply isValidMove_same_square|].
  unfold isValidKingMove. by rewrite !Z.sub_diag.
Qed.

Lemma isValidMove_null_move_witness :
  isValidMove createBoard 7 4 7 4 = Some false ∧ isValidKingMove 7 4 7 4 = true.
Proof. apply (isValidMove_null_move createBoard 7 4). lia. Defined.

(** ** The initial board *)

Lemma allPairs_spec fr fc tr tc :
  ((fr, fc), (tr, tc)) ∈ allPairs ↔ inBoard fr fc ∧ inBoard tr tc.
Proof.
  unfold allPairs. rewrite list_elem_of_bind. split.
  - intros ([r c] & Hin & Hf). apply list_elem_of_bind in Hin as ([r' c'] & Hin & Ht).
    apply list_elem_of_singleton in Hin. inversion Hin; subst.
    by rewrite <- !elem_of_squares8.
  - intros [Hf Ht]. exists (fr, fc). rewrite elem_of_squares8. split; [|done].
    apply list_elem_of_bind. exists (tr, tc). rewrite elem_of_squares8.
    split; [|done]. by apply list_elem_of_singleton.
Qed.

(** C2, as amended: on the initial board, over all coordinate pairs of the
    grid, [isValidMove] returns true exactly for the opening moves of either
    side, 16 pawn pushes and 4 knight moves for White and as many for Black
    (40 pairs in all), and false for every other pair. *)
Theorem isValidMove_initial_board (fr fc tr tc : Z) :
  0 ≤ fr < 8 → 0 ≤ fc < 8 → 0 ≤ tr < 8 → 0 ≤ tc < 8 →
  isValidMove createBoard fr fc tr tc
    = Some (openingMove White fr fc tr tc || openingMove Black fr fc tr tc)
  ∧ length (filter (λ p, openingMove White p.1.1 p.1.2 p.2.1 p.2.2 = true) allPairs) = 20%nat
  ∧ length (filter (λ p, openingMove Black p.1.1 p.1.2 p.2.1 p.2.2 = true) allPairs) = 20%nat
  ∧ length (filter (λ p, accepted createBoard p = true) allPairs) = 40%nat.
Proof.
  intros Hfr Hfc Htr Htc.
  split; [|by vm_compute].
  assert (Hall : Forall (λ p, isValidMove createBoard p.1.1 p.1.2 p.2.1 p.2.2
                   = Some (openingMove White p.1.1 p.1.2 p.2.1 p.2.2
                           || openingMove Black p.1.1 p.1.2 p.2.1 p.2.2)) allPairs).
  { apply Forall_forall. intros p Hp.
    assert (Hb : forallb (λ p, bool_decide
                (isValidMove createBoard p.1.1 p.1.2 p.2.1 p.2.2
                   = Some (openingMove White p.1.1 p.1.2 p.2.1 p.2.2
                           || openingMove Black p.1.1 p.1.2 p.2.1 p.2.2))) allPairs = true)
      by (vm_compute; reflexivity).
    rewrite forallb_forall in Hb. apply list_elem_of_In in Hp.
    apply Hb in Hp. by apply bool_decide_eq_true in Hp. }
  rewrite Forall_forall in Hall.
  apply (Hall ((fr, fc), (tr, tc))). apply allPairs_spec. by split.
Qed.

Lemma isValidMove_initial_board_witness :
  isValidMove createBoard 7 1 5 2 = Some true ∧ isValidMove createBoard 1 3 3 3 = Some true.
Proof.
  split.
  - apply (isValidMove_initial_board 7 1 5 2); lia.
  - apply (isValidMove_initial_board 1 3 3 3); lia.
Defined.

(** C2, as stated, fails: the initial board accepts 40 pairs, not 20, among
    them the black pawn push from (1,0) to (2,0), which is no opening move
    of White. *)
Lemma isValidMove_initial_board_not_20 :
  length (filter (λ p, accepted createBoard p = true) allPairs) ≠ 20%nat
  ∧ isValidMove createBoard 1 0 2 0 = Some true
  ∧ createBoard !! (1, 0) = Some (mkPiece Pawn Black)
  ∧ openingMove White 1 0 2 0 = false.
Proof. by vm_compute. Qed.

(** ** Running the state-and-exception monad *)

Lemma bind_run {A B} (m : M A) (f : A → M B) g a g1 r :
  m g = Ret a g1 → f a g1 = r → (m ≫= f) g = r.
Proof. unfold mbind, M_bind. by intros -> ->. Qed.

Lemma bind_throw {A B} (m : M A) (f : A → M B) g g1 :
  m g = Throw g1 → (m ≫= f) g = Throw g1.
Proof. unfold mbind, M_bind. by intros ->. Qed.

Lemma bind_Ret_inv {A B} (m : M A) (f : A → M B) g b g' :
  (m ≫= f) g = Ret b g' → ∃ a g1, m g = Ret a g1 ∧ f a g1 = Ret b g'.
Proof. unfold mbind, M_bind. destruct (m g) as [a g1|]; [eauto|done]. Qed.

Lemma liftR_run {A} (f : Board → option A) g a :
  f (board g) = Some a → liftR f g = Ret a g.
Proof. unfold liftR. by intros ->. Qed.

Lemma liftR_inv {A} (f : Board → option A) g a g' :
  liftR f g = Ret a g' → g' = g ∧ f (board g) = Some a.
Proof. unfold liftR. destruct (f (board g)); naive_solver. Qed.

Lemma readSq_run r c g :
  validRow r = true → readSq r c g = Ret (board g !! (r, c)) g.
Proof. intros Hr. apply liftR_run. by apply getSq_valid. Qed.

Lemma readSq_inv r c g s g' :
  readSq r c g = Ret s g' → g' = g ∧ validRow r = true ∧ board g !! (r, c) = s.
Proof.
  unfold readSq. intros H. apply liftR_inv in H as [-> H].
  apply getSq_Some in H. tauto.
Qed.

Lemma writeSq_run r c v g :
  validRow r = true →
  writeSq r c v g = Ret tt (setBoard (partial_alter (λ _, v) (r, c) (board g)) g).
Proof. intros Hr. unfold writeSq. by rewrite setSq_valid. Qed.

Lemma writeSq_inv r c v g u g' :
  writeSq r c v g = Ret u g' →
  validRow r = true ∧ g' = setBoard (partial_alter (λ _, v) (r, c) (board g)) g.
Proof. unfold writeSq, setSq. destruct (validRow r); naive_solver. Qed.

(** ** Loops whose body leaves the state alone *)

Lemma firstSome_None {I A} (f : I → option A) xs :
  firstSome f xs = None ↔ ∀ x, x ∈ xs → f x = None.
Proof.
  induction xs as [|x xs IH]; simpl.
  - split; [|done]. intros _ x Hx. by apply elem_of_nil in Hx.
  - destruct (f x) eqn:Hfx.
    + split; [done|]. intros H. rewrite <- Hfx. apply H. by left.
    + rewrite IH. split.
      * intros H y [->|Hy]%elem_of_cons; auto.
      * intros H y Hy. apply H. by right.
Qed.

Lemma firstSome_Some {I A} (f : I → option A) xs v :
  firstSome f xs = Some v → ∃ x, x ∈ xs ∧ f x = Some v.
Proof.
  induction xs as [|x xs IH]; simpl; [done|].
  destruct (f x) eqn:Hfx.
  - intros [= <-]. exists x. split; [by left|done].
  - intros (y & Hy & Hv)%IH. exists y. split; [by right|done].
Qed.

Lemma forEach_opt_run {I A} (xs : list I) (body : I → option (option A)) f :
  (∀ x, x ∈ xs → body x = Some (f x)) →
  forEach xs body = Some (firstSome f xs).
Proof.
  induction xs as [|x xs IH]; intros Hb; simpl; [done|].
  rewrite (Hb x) by (by left). simpl.
  destruct (f x); [done|]. apply IH. intros y Hy. apply Hb. by right.
Qed.

Lemma forEach_run {I A} (xs : list I) (body : I → M (option A)) f g :
  (∀ x, x ∈ xs → body x g = Ret (f x) g) →
  forEach xs body g = Ret (firstSome f xs) g.
Proof.
  induction xs as [|x xs IH]; intros Hb; simpl; [done|].
  eapply bind_run; [apply Hb; by left|].
  destruct (f x); [done|]. apply IH. intros y Hy. apply Hb. by right.
Qed.

Lemma foldM_app_run {I E} (xs : list I) (body : I → list E → M (list E)) f g s :
  (∀ x s, x ∈ xs → body x s g = Ret (s ++ f x) g) →
  foldM xs body s g = Ret (s ++ (xs ≫= f)) g.
Proof.
  revert s. induction xs as [|x xs IH]; intros s Hb; simpl.
  - by rewrite app_nil_r.
  - eapply bind_run; [apply Hb; by left|].
    rewrite IH by (intros y s' Hy; apply Hb; by right).
    by rewrite app_assoc.
Qed.

Lemma restores_ret {A} (a : A) g : restores (mret a) g.
Proof. intros a' g' [= _ <-]. done. Qed.

Lemma restores_bind {A B} (m : M A) (f : A → M B) g :
  restores m g → (∀ a, m g = Ret a g → restores (f a) g) → restores (m ≫= f) g.
Proof.
  intros Hm Hf b g' (a & g1 & H1 & H2)%bind_Ret_inv.
  pose proof (Hm _ _ H1) as ->. by apply (Hf a H1) in H2.
Qed.

Lemma restores_liftR {A} (f : Board → option A) g : restores (liftR f) g.
Proof. intros a g' H. by apply liftR_inv in H as [-> _]. Qed.

Lemma restores_gets {A} (f : Game → A) g : restores (gets f) g.
Proof. intros a g' [= _ <-]. done. Qed.

Lemma restores_forEach {I A} (xs : list I) (body : I → M (option A)) g :
  (∀ x, x ∈ xs → restores (body x) g) → restores (forEach xs body) g.
Proof.
  induction xs as [|x xs IH]; intros Hb; simpl.
  - apply restores_ret.
  - apply restores_bind; [apply Hb; by left|].
    intros [v|] _; [apply restores_ret|]. apply IH. intros y Hy. apply Hb. by right.
Qed.

Lemma restores_foldM {I S} (xs : list I) (body : I → S → M S) s g :
  (∀ x s, x ∈ xs → restores (body x s) g) → restores (foldM xs body s) g.
Proof.
  revert s. induction xs as [|x xs IH]; intros s Hb; simpl.
  - apply restores_ret.
  - apply restores_bind; [apply Hb; by left|].
    intros s' _. apply IH. intros y s'' Hy. apply Hb. by right.
Qed.

Lemma restores_readSq r c g : restores (readSq r c) g.
Proof. apply restores_liftR. Qed.

(** ** Try the move, look, undo the move *)

Lemma tentative_undone (b : Board) fr fc tr tc :
  partial_alter (λ _, b !! (tr, tc)) (tr, tc)
    (partial_alter (λ _, b !! (fr, fc)) (fr, fc) (tentative b fr fc tr tc)) = b.
Proof.
  apply map_eq. intros k. unfold tentative.
  rewrite !lookup_partial_alter. repeat case_decide; congruence.
Qed.

Lemma tentative_lookup (b : Board) fr fc tr tc k :
  tentative b fr fc tr tc !! k =
    if decide ((fr, fc) = k) then None
    else if decide ((tr, tc) = k) then b !! (fr, fc) else b !! k.
Proof. unfold tentative. by rewrite !lookup_partial_alter. Qed.

Lemma undo_state g fr fc tr tc :
  setBoard
    (partial_alter (λ _, board g !! (tr, tc)) (tr, tc)
       (board (setBoard
          (partial_alter (λ _, board g !! (fr, fc)) (fr, fc)
             (board (setBoard (tentative (board g) fr fc tr tc) g)))
          (setBoard (tentative (board g) fr fc tr tc) g))))
    (setBoard
       (partial_alter (λ _, board g !! (fr, fc)) (fr, fc)
          (board (setBoard (tentative (board g) fr fc tr tc) g)))
       (setBoard (tentative (board g) fr fc tr tc) g)) = g.
Proof.
  destruct g as [b cp go mh gm]. unfold setBoard. cbn [board currentPlayer gameOver moveHistory gameMode].
  by rewrite tentative_undone.
Qed.

Lemma try_state g fr fc tr tc :
  setBoard
    (partial_alter (λ _, None) (fr, fc)
       (board (setBoard (partial_alter (λ _, board g !! (fr, fc)) (tr, tc) (board g)) g)))
    (setBoard (partial_alter (λ _, board g !! (fr, fc)) (tr, tc) (board g)) g)
  = setBoard (tentative (board g) fr fc tr tc) g.
Proof. done. Qed.

Lemma attempt_run {A B} g fr fc tr tc p o (inner : M A) (k : A → M B) x :
  validRow fr = true → validRow tr = true →
  board g !! (fr, fc) = p → board g !! (tr, tc) = o →
  inner (setBoard (tentative (board g) fr fc tr tc) g)
    = Ret x (setBoard (tentative (board g) fr fc tr tc) g) →
  (writeSq tr tc p;; writeSq fr fc None;; y ← inner;
   writeSq fr fc p;; writeSq tr tc o;; k y) g = k x g.
Proof.
  intros Hfr Htr <- <- Hin.
  eapply bind_run; [by apply writeSq_run|].
  eapply bind_run; [by apply writeSq_run|].
  rewrite try_state.
  eapply bind_run; [apply Hin|].
  eapply bind_run; [by apply writeSq_run|].
  eapply bind_run; [by apply writeSq_run|].
  f_equal. apply undo_state.
Qed.


Lemma attempt_restores {A B} g fr fc tr tc p o (inner : M A) (k : A → M B) :
  board g !! (fr, fc) = p → board g !! (tr, tc) = o →
  (∀ g1, restores inner g1) → (∀ y, restores (k y) g) →
  restores (writeSq tr tc p;; writeSq fr fc None;; y ← inner;
            writeSq fr fc p;; writeSq tr tc o;; k y) g.
Proof.
  intros <- <- Hin Hk b g' H.
  apply bind_Ret_inv in H as ([] & g1 & [Htr ->]%writeSq_inv & H).
  apply bind_Ret_inv in H as ([] & g2 & [Hfr ->]%writeSq_inv & H).
  rewrite try_state in H.
  apply bind_Ret_inv in H as (y & g3 & Hy & H).
  apply Hin in Hy as ->.
  apply bind_Ret_inv in H as ([] & g4 & [_ ->]%writeSq_inv & H).
  apply bind_Ret_inv in H as ([] & g5 & [_ ->]%writeSq_inv & H).
  rewrite undo_state in H. by apply Hk in H.
Qed.

(** ** The read-only methods never raise on the grid *)

Lemma forEach_opt_None_inv {I A} (xs : list I) (body : I → option (option A)) :
  forEach xs body = Some None → ∀ x, x ∈ xs → body x = Some None.
Proof.
  induction xs as [|x xs IH]; simpl; intros H y Hy.
  - by apply elem_of_nil in Hy.
  - destruct (body x) as [[v|]|] eqn:Hbx; simpl in H; try done.
    apply elem_of_cons in Hy as [->|Hy]; [done|]. by apply IH.
Qed.

Lemma forEach_opt_Some_inv {I A} (xs : list I) (body : I → option (option A)) v :
  forEach xs body = Some (Some v) → ∃ x, x ∈ xs ∧ body x = Some (Some v).
Proof.
  induction xs as [|x xs IH]; simpl; intros H; [done|].
  destruct (body x) as [[w|]|] eqn:Hbx; simpl in H; try done.
  - injection H as ->. exists x. split; [by left|done].
  - apply IH in H as (y & Hy & Hb). exists y. split; [by right|done].
Qed.

Lemma anyOccupied_defined (b : Board) sqs :
  (∀ r c, (r, c) ∈ sqs → validRow r = true) → is_Some (anyOccupied b sqs).
Proof.
  intros Hv. unfold anyOccupied.
  rewrite (forEach_opt_run sqs _
             (λ '(r, c), if occupied (b !! (r, c)) then Some true else None)).
  - by eexists.
  - intros [r c] Hin. by rewrite (getSq_valid _ _ _ (Hv r c Hin)).
Qed.

Lemma isValidPawnMove_defined (b : Board) fr fc tr tc p :
  validRow fr = true → validRow tr = true → b !! (fr, fc) = Some p →
  is_Some (isValidPawnMove b fr fc tr tc).
Proof.
  intros Hfr Htr Hp. unfold isValidPawnMove.
  rewrite (getSq_valid _ _ _ Hfr), Hp, !(getSq_valid _ _ _ Htr). simpl.
  generalize (b !! (tr, tc)). intros o.
  assert (Hmid : ∀ s0 d, (s0 = 6 ∧ d = -1) ∨ (s0 = 1 ∧ d = 1) →
     is_Some (andThen ((fc =? tc) && (fr =? s0) && (tr =? fr + 2 * d))
       (getSq b (fr + d) fc ≫= λ m, andThen (negb (occupied m)) (Some (negb (occupied o)))))).
  { intros s0 d Hsd. destruct (fr =? s0) eqn:E.
    - apply Z.eqb_eq in E. rewrite getSq_valid.
      + simpl. unfold andThen. repeat case_match; by eexists.
      + apply validRow_true. lia.
    - rewrite andb_false_r. by eexists. }
  destruct (color p).
  - destruct (Hmid 6 (-1)) as [v ->]; [lia|]. simpl.
    unfold andThen. destruct o; simpl; repeat (case_match; simpl; try by eexists).
  - destruct (Hmid 1 1) as [v ->]; [lia|]. simpl.
    unfold andThen. destruct o; simpl; repeat (case_match; simpl; try by eexists).
Qed.

Lemma isValidRookMove_defined (b : Board) fr fc tr tc :
  validRow fr = true → validRow tr = true →
  is_Some (isValidRookMove b fr fc tr tc).
Proof.
  intros Hfr Htr. unfold isValidRookMove.
  destruct (negb (fr =? tr) && negb (fc =? tc)); [by eexists|].
  destruct (fr =? tr).
  - destruct (anyOccupied_defined b ((λ c, (fr, c)) <$> range (Z.min fc tc + 1) (Z.max fc tc)))
      as [v ->]; [|by eexists].
    intros r c (c' & [= -> ->] & _)%list_elem_of_fmap. done.
  - destruct (anyOccupied_defined b ((λ r, (r, fc)) <$> range (Z.min fr tr + 1) (Z.max fr tr)))
      as [v ->]; [|by eexists].
    intros r c (r' & [= -> ->] & Hin%elem_of_range)%list_elem_of_fmap.
    apply validRow_true in Hfr, Htr. apply validRow_true. lia.
Qed.

Lemma isValidBishopMove_defined (b : Board) fr fc tr tc :
  validRow fr = true → validRow tr = true →
  is_Some (isValidBishopMove b fr fc tr tc).
Proof.
  intros Hfr Htr. unfold isValidBishopMove.
  destruct (negb (Z.abs (fr - tr) =? Z.abs (fc - tc))); [by eexists|].
  match goal with |- is_Some (anyOccupied b ?l ≫= _) =>
    destruct (anyOccupied_defined b l) as [v ->]; [|by eexists] end.
  intros r c (i & [= -> ->] & Hin%elem_of_range)%list_elem_of_fmap.
  apply validRow_true in Hfr, Htr. apply validRow_true.
  destruct (fr <? tr) eqn:Hlt; [apply Z.ltb_lt in Hlt|apply Z.ltb_ge in Hlt]; lia.
Qed.

Lemma isValidMove_defined (b : Board) fr fc tr tc :
  validRow fr = true → validRow tr = true →
  is_Some (isValidMove b fr fc tr tc).
Proof.
  intros Hfr Htr. unfold isValidMove.
  rewrite (getSq_valid _ _ _ Hfr). simpl.
  destruct (b !! (fr, fc)) as [p|] eqn:Hp; [|by eexists].
  rewrite (getSq_valid _ _ _ Htr). simpl.
  destruct (match b !! (tr, tc) with Some t => _ | None => false end); [by eexists|].
  destruct (type p).
  - by eapply isValidPawnMove_defined.
  - by apply isValidRookMove_defined.
  - by eexists.
  - by apply isValidBishopMove_defined.
  - unfold isValidQueenMove.
    destruct (isValidRookMove_defined b fr fc tr tc Hfr Htr) as [[] ->]; simpl.
    + by eexists.
    + by apply isValidBishopMove_defined.
  - by eexists.
Qed.

Lemma isValidMove_validB (b : Board) fr fc tr tc :
  validRow fr = true → validRow tr = true →
  isValidMove b fr fc tr tc = Some (validB b fr fc tr tc).
Proof.
  intros Hfr Htr. unfold validB.
  by destruct (isValidMove_defined b fr fc tr tc Hfr Htr) as [v ->].
Qed.

(** What an accepted move says about its two squares. *)
Lemma isValidMove_true_inv (b : Board) fr fc tr tc :
  isValidMove b fr fc tr tc = Some true →
  validRow fr = true ∧ validRow tr = true ∧
  ∃ p, b !! (fr, fc) = Some p ∧ ∀ t, b !! (tr, tc) = Some t → color t ≠ color p.
Proof.
  unfold isValidMove. intros H.
  destruct (getSq b fr fc) as [s|] eqn:Hs; [|done]. simpl in H.
  apply getSq_Some in Hs as [Hfr Hs].
  destruct s as [p|]; [|done].
  destruct (getSq b tr tc) as [t|] eqn:Ht; [|done]. simpl in H.
  apply getSq_Some in Ht as [Htr Ht].
  split; [done|]. split; [done|]. exists p. split; [done|].
  intros t' Ht'. rewrite Ht' in Ht. subst t.
  destruct (bool_decide (color t' = color p)) eqn:Hc; [done|].
  by apply bool_decide_eq_false in Hc.
Qed.

Lemma isValidMove_true_ne (b : Board) fr fc tr tc :
  isValidMove b fr fc tr tc = Some true → (fr, fc) ≠ (tr, tc).
Proof.
  intros H [= -> ->].
  pose proof (isValidMove_true_inv _ _ _ _ _ H) as (Hfr & _ & _).
  apply validRow_true in Hfr.
  rewrite (isValidMove_same_square b tr tc Hfr) in H. done.
Qed.

(** ** Finding the king, and check *)

Lemma findKing_run (b : Board) c : findKing b c = Some (kingSquare b c).
Proof.
  unfold findKing, kingSquare.
  erewrite forEach_opt_run; [done|].
  intros row Hrow. apply forEach_opt_run.
  intros col _. by rewrite (getSq_valid _ _ _ (range8_validRow _ Hrow)).
Qed.

Lemma kingSquare_cases (b : Board) c :
  (inBoard (kingSquare b c).1 (kingSquare b c).2
   ∧ isKingOf c (b !! kingSquare b c) = true)
  ∨ (kingSquare b c = (-1, -1) ∧ ¬ hasKing b c).
Proof.
  unfold kingSquare.
  destruct (firstSome _ range8) as [[kr kc]|] eqn:Hf; simpl.
  - left. apply firstSome_Some in Hf as (row & Hrow & Hf).
    apply firstSome_Some in Hf as (col & Hcol & Hf).
    destruct (isKingOf c (b !! (row, col))) eqn:Hk; [|done].
    injection Hf as <- <-. split; [|done].
    split; by apply elem_of_range8.
  - right. split; [done|]. intros (row & col & [Hr Hc] & Hk).
    rewrite firstSome_None in Hf.
    specialize (Hf row (proj2 (elem_of_range8 row) Hr)).
    rewrite firstSome_None in Hf.
    specialize (Hf col (proj2 (elem_of_range8 col) Hc)).
    by rewrite Hk in Hf.
Qed.

Lemma kingSquare_hasKing (b : Board) c :
  hasKing b c →
  inBoard (kingSquare b c).1 (kingSquare b c).2
  ∧ isKingOf c (b !! kingSquare b c) = true.
Proof. intros Hk. by destruct (kingSquare_cases b c) as [?|[_ ?]]. Qed.

(** The second loop nest of [isKingInCheck] as a function of the squares. *)
Lemma isKingInCheck_defined (b : Board) c :
  hasKing b c → isKingInCheck b c = Some (checkB b c).
Proof.
  intros Hk. unfold checkB.
  destruct (isKingInCheck b c) eqn:E; [done|exfalso].
  revert E. unfold isKingInCheck. rewrite findKing_run. cbn.
  destruct (kingSquare_hasKing b c Hk) as [[Hkr _] _].
  destruct (kingSquare b c) as [kr kc]. cbn in *.
  erewrite forEach_opt_run; [done|].
  intros row Hrow. apply forEach_opt_run with
    (f := λ col, match b !! (row, col) with
                 | Some piece =>
                     if bool_decide (color piece = opponentOf c)
                     then if validB b row col kr kc then Some true else None
                     else None
                 | None => None
                 end).
  intros col _. rewrite (getSq_valid _ _ _ (range8_validRow _ Hrow)). simpl.
  destruct (b !! (row, col)) as [p|]; [|done].
  destruct (bool_decide _); [|done].
  rewrite isValidMove_validB; [done|by apply range8_validRow|by apply validRow_true].
Qed.

Lemma isKingInCheck_Some_inv (b : Board) c v :
  isKingInCheck b c = Some v →
  if v then
    ∃ row col p, inBoard row col ∧ b !! (row, col) = Some p
      ∧ color p = opponentOf c
      ∧ isValidMove b row col (kingSquare b c).1 (kingSquare b c).2 = Some true
  else
    ∀ row col p, inBoard row col → b !! (row, col) = Some p →
      color p = opponentOf c →
      isValidMove b row col (kingSquare b c).1 (kingSquare b c).2 = Some false.
Proof.
  unfold isKingInCheck. rewrite findKing_run. cbn.
  destruct (kingSquare b c) as [kr kc]. cbn.
  destruct (forEach range8 _) as [r|] eqn:Hr; [|done]. cbn.
  assert (Hbody : ∀ row col w, row ∈ range8 →
            (s ← getSq b row col;
             match s with
             | Some piece =>
                 if bool_decide (color piece = opponentOf c) then
                   v ← isValidMove b row col kr kc;
                   Some (if v : bool then Some true else None)
                 else Some None
             | None => Some None
             end) = Some w →
            match w with
            | Some x => x = true ∧ ∃ p, b !! (row, col) = Some p
                          ∧ color p = opponentOf c
                          ∧ isValidMove b row col kr kc = Some true
            | None => ∀ p, b !! (row, col) = Some p → color p = opponentOf c →
                          isValidMove b row col kr kc = Some false
            end).
  { intros row col w Hrow.
    rewrite (getSq_valid _ _ _ (range8_validRow _ Hrow)). simpl.
    destruct (b !! (row, col)) as [p|]; [|by intros [= <-]].
    destruct (bool_decide (color p = opponentOf c)) eqn:Hc.
    - apply bool_decide_eq_true in Hc.
      destruct (isValidMove b row col kr kc) as [[]|]; simpl; intros [= <-].
      + split; [done|]. by exists p.
      + by intros p' [= <-] _.
    - apply bool_decide_eq_false in Hc. intros [= <-]. by intros p' [= <-] ?. }
  intros [= <-]. destruct r as [x|]; simpl.
  - apply forEach_opt_Some_inv in Hr as (row & Hrow & Hr).
    apply forEach_opt_Some_inv in Hr as (col & Hcol & Hr).
    apply (Hbody _ _ _ Hrow) in Hr as [-> (p & Hp & Hc & Hv)].
    exists row, col, p. split; [|done]. split; by apply elem_of_range8.
  - intros row col p [Hrow%elem_of_range8 Hcol%elem_of_range8] Hp Hc.
    pose proof (forEach_opt_None_inv _ _ Hr row Hrow) as Hr'.
    pose proof (forEach_opt_None_inv _ _ Hr' col Hcol) as Hr''.
    pose proof (Hbody _ _ _ Hrow Hr'') as Hb. cbn in Hb. by apply (Hb p).
Qed.

Lemma isKingInCheck_true_hasKing (b : Board) c :
  isKingInCheck b c = Some true → hasKing b c.
Proof.
  intros H. apply isKingInCheck_Some_inv in H as (row & col & p & _ & _ & _ & Hv).
  destruct (kingSquare_cases b c) as [[Hin Hk]|[Hks _]].
  - destruct (kingSquare b c) as [kr kc]. by exists kr, kc.
  - rewrite Hks in Hv. by apply isValidMove_true_inv in Hv as (_ & ? & _).
Qed.

(** ** Kings survive the moves that are tried *)

Lemma isKingOf_color c (s : Square) :
  isKingOf c s = true → ∃ p, s = Some p ∧ type p = King ∧ color p = c.
Proof.
  destruct s as [p|]; [|done]. simpl.
  intros [?%bool_decide_eq_true ?%bool_decide_eq_true]%andb_true_iff. by exists p.
Qed.

Lemma hasKing_tentative_own (b : Board) side fr fc tr tc p :
  hasKing b side → inBoard tr tc → b !! (fr, fc) = Some p → color p = side →
  isValidMove b fr fc tr tc = Some true →
  hasKing (tentative b fr fc tr tc) side.
Proof.
  intros (r0 & c0 & Hin & Hk) Hto Hp Hside Hv.
  pose proof (isValidMove_true_ne _ _ _ _ _ Hv) as Hne.
  pose proof (isValidMove_true_inv _ _ _ _ _ Hv) as (_ & _ & p' & Hp' & Htarget).
  rewrite Hp in Hp'. injection Hp' as <-.
  destruct (decide ((fr, fc) = (r0, c0))) as [Heq|Hnf].
  - exists tr, tc. split; [done|]. rewrite tentative_lookup.
    rewrite decide_False by done. rewrite decide_True by done. by rewrite Heq.
  - exists r0, c0. split; [done|]. rewrite tentative_lookup.
    rewrite decide_False by done.
    destruct (decide ((tr, tc) = (r0, c0))) as [Heq|_]; [|done].
    apply isKingOf_color in Hk as (q & Hq & _ & Hqc).
    rewrite <- Heq in Hq. apply Htarget in Hq. congruence.
Qed.

Lemma opponentOf_ne c : opponentOf c ≠ c.
Proof. by destruct c. Qed.

Lemma opponentOf_involutive c : opponentOf (opponentOf c) = c.
Proof. by destruct c. Qed.

(** Without a king the scan keeps the sentinel (-1, -1). *)
Lemma firstSome_const_None {I A} (xs : list I) :
  firstSome (λ _, @None A) xs = None.
Proof. by induction xs. Qed.

Lemma forEach_opt_raise {I A} (xs : list I) (body : I → option (option A)) :
  (∀ x, x ∈ xs → body x = Some None ∨ body x = None) →
  (∃ x, x ∈ xs ∧ body x = None) → forEach xs body = None.
Proof.
  induction xs as [|x xs IH]; intros Hb (y & Hy & Hnone).
  - by apply elem_of_nil in Hy.
  - simpl. destruct (Hb x) as [Hx|Hx]; [by left| |by rewrite Hx].
    rewrite Hx. simpl. apply IH.
    + intros z Hz. apply Hb. by right.
    + apply elem_of_cons in Hy as [->|Hy]; [congruence|by exists y].
Qed.

Lemma scan_without_king (b : Board) c row col :
  row ∈ range8 →
  (s ← getSq b row col;
   match s with
   | Some piece =>
       if bool_decide (color piece = opponentOf c) then
         v ← isValidMove b row col (-1) (-1);
         Some (if v : bool then Some true else None)
       else Some None
   | None => Some None
   end : option (option bool))
  = match b !! (row, col) with
    | Some piece =>
        if bool_decide (color piece = opponentOf c) then None else Some None
    | None => Some None
    end.
Proof.
  intros Hrow. pose proof (range8_validRow _ Hrow) as Hv.
  rewrite (getSq_valid _ _ _ Hv). cbn.
  destruct (b !! (row, col)) as [p|] eqn:Hp; [|done].
  destruct (bool_decide _); [|done].
  unfold isValidMove, getSq. by rewrite Hv, Hp.
Qed.

Lemma isKingInCheck_no_king (b : Board) c :
  ¬ hasKing b c →
  (∃ row col p, inBoard row col ∧ b !! (row, col) = Some p
     ∧ color p = opponentOf c) →
  isKingInCheck b c = None.
Proof.
  intros Hno (row & col & p & [Hrow%elem_of_range8 Hcol%elem_of_range8] & Hp & Hc).
  destruct (kingSquare_cases b c) as [[Hin Hk]|[Hks _]].
  { exfalso. apply Hno. destruct (kingSquare b c) as [kr kc]. by exists kr, kc. }
  unfold isKingInCheck. rewrite findKing_run, Hks. cbn.
  rewrite forEach_opt_raise; [done| |].
  - intros r Hr.
    destruct (forEach range8 _) as [[v|]|] eqn:E; [|by left|by right].
    apply forEach_opt_Some_inv in E as (c0 & _ & E).
    rewrite (scan_without_king _ _ _ _ Hr) in E.
    destruct (b !! (r, c0)); [destruct (bool_decide _)|]; done.
  - exists row. split; [done|]. apply forEach_opt_raise.
    + intros c0 _. rewrite (scan_without_king _ _ _ _ Hrow).
      destruct (b !! (row, c0)); [destruct (bool_decide _)|]; auto.
    + exists col. split; [done|]. rewrite (scan_without_king _ _ _ _ Hrow), Hp.
      by rewrite bool_decide_eq_true_2.
Qed.

(** ** Enumerating the legal moves *)

Lemma try_check_run {B} g side fr fc tr tc p (k : bool → M B) :
  validRow fr = true → validRow tr = true →
  board g !! (fr, fc) = Some p →
  hasKing (tentative (board g) fr fc tr tc) side →
  (originalTarget ← readSq tr tc;
   writeSq tr tc (Some p);; writeSq fr fc None;;
   chk ← liftR (λ b, isKingInCheck b side);
   writeSq fr fc (Some p);; writeSq tr tc originalTarget;; k chk) g
  = k (checkB (tentative (board g) fr fc tr tc) side) g.
Proof.
  intros Hfr Htr Hp Hk.
  eapply bind_run; [by apply readSq_run|].
  eapply attempt_run; try done.
  apply liftR_run. by apply isKingInCheck_defined.
Qed.

Lemma validB_true (b : Board) fr fc tr tc :
  validB b fr fc tr tc = true ↔ isValidMove b fr fc tr tc = Some true.
Proof. unfold validB. destruct (isValidMove b fr fc tr tc) as [[]|]; naive_solver. Qed.

Lemma elem_of_legalMovesOf (b : Board) side m :
  m ∈ legalMovesOf b side ↔
    inBoard (fromRow m) (fromCol m) ∧ inBoard (toRow m) (toCol m) ∧
    (∃ p, b !! (fromRow m, fromCol m) = Some p ∧ color p = side) ∧
    validB b (fromRow m) (fromCol m) (toRow m) (toCol m) = true ∧
    checkB (tentative b (fromRow m) (fromCol m) (toRow m) (toCol m)) side = false.
Proof.
  unfold legalMovesOf, inBoard. split.
  - intros (fr & (fc & Hin & Hfc%elem_of_range8)%list_elem_of_bind
               & Hfr%elem_of_range8)%list_elem_of_bind.
    destruct (b !! (fr, fc)) as [p|] eqn:Hp; [|by apply elem_of_nil in Hin].
    destruct (bool_decide (color p = side)) eqn:Hc; [|by apply elem_of_nil in Hin].
    apply bool_decide_eq_true in Hc.
    apply list_elem_of_bind in Hin as (tr & Hin & Htr%elem_of_range8).
    apply list_elem_of_bind in Hin as (tc & Hin & Htc%elem_of_range8).
    destruct (validB b fr fc tr tc) eqn:Hv; [|by apply elem_of_nil in Hin].
    destruct (checkB (tentative b fr fc tr tc) side) eqn:Hk;
      [by apply elem_of_nil in Hin|].
    apply list_elem_of_singleton in Hin as ->. simpl.
    repeat split; try done; try lia. by exists p.
  - destruct m as [fr fc tr tc]. cbn [fromRow fromCol toRow toCol].
    intros ([Hfr Hfc] & [Htr Htc] & (p & Hp & Hc) & Hv & Hk).
    apply list_elem_of_bind. exists fr. split; [|by apply elem_of_range8].
    apply list_elem_of_bind. exists fc. split; [|by apply elem_of_range8].
    rewrite Hp, bool_decide_eq_true_2 by done.
    apply list_elem_of_bind. exists tr. split; [|by apply elem_of_range8].
    apply list_elem_of_bind. exists tc. split; [|by apply elem_of_range8].
    rewrite Hv, Hk. simpl. by apply list_elem_of_singleton.
Qed.

Lemma legalMove_iff (b : Board) side m :
  hasKing b side → legalMove b side m ↔ m ∈ legalMovesOf b side.
Proof.
  intros Hk. rewrite elem_of_legalMovesOf. unfold legalMove, pseudoLegal.
  rewrite validB_true. split.
  - intros [(Hf & Ht & Hp & Hv) Hc].
    split; [done|]. split; [done|]. split; [done|]. split; [done|].
    unfold checkB. by rewrite Hc.
  - intros (Hf & Ht & (p & Hp & Hside) & Hv & Hc).
    split; [split; [done|]; split; [done|]; split; [by exists p|done]|].
    rewrite isKingInCheck_defined; [by rewrite Hc|].
    by apply hasKing_tentative_own with p.
Qed.

Lemma legalMovesOf_nil (b : Board) side :
  hasKing b side → legalMovesOf b side = [] ↔ ∀ m, ¬ legalMove b side m.
Proof.
  intros Hk. split.
  - intros Hnil m Hm. apply (legalMove_iff _ _ _ Hk) in Hm.
    rewrite Hnil in Hm. by apply elem_of_nil in Hm.
  - intros Hno. destruct (legalMovesOf b side) as [|m ms] eqn:E; [done|].
    exfalso. apply (Hno m). apply (legalMove_iff _ _ _ Hk). rewrite E. by left.
Qed.

Lemma escapeSearch_spec (b : Board) side :
  default true (escapeSearch b side) = bool_decide (legalMovesOf b side = []).
Proof.
  destruct (escapeSearch b side) as [v|] eqn:E; simpl.
  - unfold escapeSearch in E.
    apply firstSome_Some in E as (fr & Hfr & E).
    apply firstSome_Some in E as (fc & Hfc & E).
    destruct (b !! (fr, fc)) as [p|] eqn:Hp; [|done].
    destruct (bool_decide (color p = side)) eqn:Hc; [|done].
    apply firstSome_Some in E as (tr & Htr & E).
    apply firstSome_Some in E as (tc & Htc & E).
    destruct (validB b fr fc tr tc) eqn:Hv; [|done].
    destruct (checkB (tentative b fr fc tr tc) side) eqn:Hk; [done|].
    injection E as <-. symmetry. apply bool_decide_eq_false. intros Hnil.
    assert (Hin : mkMove fr fc tr tc ∈ legalMovesOf b side).
    { apply elem_of_legalMovesOf. simpl.
      apply elem_of_range8 in Hfr, Hfc, Htr, Htc.
      apply bool_decide_eq_true in Hc. repeat split; try done; try lia.
      by exists p. }
    rewrite Hnil in Hin. by apply elem_of_nil in Hin.
  - symmetry. apply bool_decide_eq_true.
    destruct (legalMovesOf b side) as [|m ms] eqn:El; [done|exfalso].
    assert (Hin : m ∈ legalMovesOf b side) by (rewrite El; by left).
    apply elem_of_legalMovesOf in Hin
      as ([Hfr Hfc] & [Htr Htc] & (p & Hp & Hc) & Hv & Hk).
    unfold escapeSearch in E.
    rewrite firstSome_None in E.
    specialize (E _ (proj2 (elem_of_range8 _) Hfr)).
    rewrite firstSome_None in E.
    specialize (E _ (proj2 (elem_of_range8 _) Hfc)).
    rewrite Hp, bool_decide_eq_true_2 in E by done.
    rewrite firstSome_None in E.
    specialize (E _ (proj2 (elem_of_range8 _) Htr)).
    rewrite firstSome_None in E.
    specialize (E _ (proj2 (elem_of_range8 _) Htc)).
    by rewrite Hv, Hk in E.
Qed.

Lemma isCheckmate_run g side :
  hasKing (board g) side →
  isCheckmate side g
    = Ret (checkB (board g) side && bool_decide (legalMovesOf (board g) side = [])) g.
Proof.
  intros Hk. unfold isCheckmate.
  eapply bind_run; [apply liftR_run; by apply isKingInCheck_defined|].
  destruct (checkB (board g) side); [|done]. cbn [negb andb].
  eapply bind_run; [|by rewrite <- escapeSearch_spec].
  unfold escapeSearch.
  apply forEach_run. intros fromRow HfromRow.
  apply forEach_run. intros fromCol HfromCol.
  pose proof (range8_validRow _ HfromRow) as Hfr.
  eapply bind_run; [by apply readSq_run|].
  destruct (board g !! (fromRow, fromCol)) as [piece|] eqn:Hp; [|done].
  destruct (bool_decide (color piece = side)) eqn:Hc; [|done].
  apply bool_decide_eq_true in Hc.
  apply forEach_run. intros toRow HtoRow.
  apply forEach_run. intros toCol HtoCol.
  pose proof (range8_validRow _ HtoRow) as Htr.
  eapply bind_run; [apply liftR_run; by apply isValidMove_validB|].
  destruct (validB (board g) fromRow fromCol toRow toCol) eqn:Hv; [|done].
  rewrite try_check_run; try done.
  apply hasKing_tentative_own with piece; try done.
  - split; by apply elem_of_range8.
  - rewrite isValidMove_validB by done. by rewrite Hv.
Qed.

(** ** The queries restore the board whenever they return *)

Lemma try_check_restores {B} g side fr fc tr tc p (k : bool → M B) :
  board g !! (fr, fc) = Some p →
  (∀ chk, restores (k chk) g) →
  restores (originalTarget ← readSq tr tc;
            writeSq tr tc (Some p);; writeSq fr fc None;;
            chk ← liftR (λ b, isKingInCheck b side);
            writeSq fr fc (Some p);; writeSq tr tc originalTarget;; k chk) g.
Proof.
  intros Hp Hk. apply restores_bind; [apply restores_liftR|].
  intros o (_ & _ & Ho)%readSq_inv.
  apply attempt_restores; try done.
  intros g1. apply restores_liftR.
Qed.

Lemma isCheckmate_restores side g : restores (isCheckmate side) g.
Proof.
  unfold isCheckmate.
  apply restores_bind; [apply restores_liftR|].
  intros inCheck _. destruct (negb inCheck); [apply restores_ret|].
  apply restores_bind; [|intros; apply restores_ret].
  apply restores_forEach. intros fromRow _.
  apply restores_forEach. intros fromCol _.
  apply restores_bind; [apply restores_liftR|].
  intros s (_ & _ & Hs)%readSq_inv.
  destruct s as [piece|]; [|apply restores_ret].
  destruct (bool_decide _); [|apply restores_ret].
  apply restores_forEach. intros toRow _.
  apply restores_forEach. intros toCol _.
  apply restores_bind; [apply restores_liftR|].
  intros [] _; [|apply restores_ret].
  apply try_check_restores; [done|]. intros chk. apply restores_ret.
Qed.


(** ** Applying and undoing a move *)

Lemma movePiece_outcome g fr fc tr tc p :
  validRow fr = true → validRow tr = true → board g !! (fr, fc) = Some p →
  let g1 := applied g fr fc tr tc p in
  movePiece fr fc tr tc g =
    match isKingInCheck (board g1) (currentPlayer g1) with
    | None => Throw g1
    | Some false => Ret tt g1
    | Some true =>
        Ret tt (if bool_decide (legalMovesOf (board g1) (currentPlayer g1) = [])
                then setGameOver true g1 else g1)
    end.
Proof.
  intros Hfr Htr Hp g1. unfold movePiece.
  eapply bind_run; [by apply readSq_run|].
  eapply bind_run; [by apply readSq_run|].
  eapply bind_run; [done|]. rewrite Hp.
  eapply bind_run; [by apply writeSq_run|].
  eapply bind_run; [by apply writeSq_run|].
  eapply bind_run; [by apply writeSq_run|].
  eapply bind_run; [done|].
  eapply bind_run; [done|].
  match goal with |- (liftR _ ≫= _) ?gx = _ =>
    assert (Hg : gx = g1) by (unfold g1, applied, entryOf; by rewrite Hp);
    rewrite Hg; clear Hg end.
  destruct (isKingInCheck (board g1) (currentPlayer g1)) as [[]|] eqn:Hchk.
  - eapply bind_run; [by apply liftR_run|].
    pose proof (isKingInCheck_true_hasKing _ _ Hchk) as Hk.
    eapply bind_run; [by apply isCheckmate_run|].
    unfold checkB. rewrite Hchk. cbn [default andb].
    by destruct (bool_decide _).
  - eapply bind_run; [by apply liftR_run|]. done.
  - apply bind_throw. unfold liftR. by rewrite Hchk.
Qed.

Lemma movedBoard_lookup (b : Board) fr fc tr tc p k :
  movedBoard b fr fc tr tc p !! k =
    if decide ((fr, fc) = k) then None
    else if decide ((tr, tc) = k) then Some (promote p tr) else b !! k.
Proof.
  unfold movedBoard. rewrite !lookup_partial_alter.
  repeat case_decide; congruence.
Qed.

Lemma movedBoard_undone (b : Board) fr fc tr tc p :
  b !! (fr, fc) = Some p →
  partial_alter (λ _, b !! (tr, tc)) (tr, tc)
    (partial_alter (λ _, b !! (fr, fc)) (fr, fc) (movedBoard b fr fc tr tc p)) = b.
Proof.
  intros Hp. apply map_eq. intros k.
  rewrite !lookup_partial_alter, movedBoard_lookup.
  repeat case_decide; congruence.
Qed.

Lemma movePiece_finalState g fr fc tr tc p :
  validRow fr = true → validRow tr = true → board g !! (fr, fc) = Some p →
  let g' := finalState (movePiece fr fc tr tc g) in
  board g' = movedBoard (board g) fr fc tr tc p
  ∧ currentPlayer g' = opponentOf (currentPlayer g)
  ∧ moveHistory g' = moveHistory g ++ [entryOf (board g) fr fc tr tc]
  ∧ gameMode g' = gameMode g.
Proof.
  intros Hfr Htr Hp. cbn zeta. rewrite (movePiece_outcome g fr fc tr tc p) by done.
  cbn zeta. destruct (isKingInCheck _ _) as [[]|]; [|done|done].
  by destruct (bool_decide _).
Qed.

Lemma popLast_snoc {A} (l : list A) x : popLast (l ++ [x]) = Some (x, l).
Proof. unfold popLast. by rewrite last_snoc, removelast_last. Qed.

Lemma undoLast_applied g g' fr fc tr tc p :
  validRow fr = true → validRow tr = true → board g !! (fr, fc) = Some p →
  board g' = movedBoard (board g) fr fc tr tc p →
  currentPlayer g' = opponentOf (currentPlayer g) →
  gameMode g' = gameMode g →
  undoLast (entryOf (board g) fr fc tr tc) (moveHistory g) g'
    = Ret tt (setGameOver (gameOver g') g).
Proof.
  intros Hfr Htr Hp Hb Hc Hm. unfold undoLast, entryOf. cbn.
  eapply bind_run; [done|].
  eapply bind_run; [by apply writeSq_run|].
  eapply bind_run; [by apply writeSq_run|].
  unfold modify. f_equal. destruct g, g'. cbn in *. subst.
  unfold setGameOver, setCurrentPlayer, setBoard, setMoveHistory. cbn.
  rewrite opponentOf_involutive. f_equal. by apply movedBoard_undone.
Qed.

Lemma undoMove_applied g g' fr fc tr tc p :
  validRow fr = true → validRow tr = true → board g !! (fr, fc) = Some p →
  board g' = movedBoard (board g) fr fc tr tc p →
  currentPlayer g' = opponentOf (currentPlayer g) →
  moveHistory g' = moveHistory g ++ [entryOf (board g) fr fc tr tc] →
  gameMode g' = gameMode g →
  gameMode g = Human ∨ moveHistory g = [] →
  undoMove g' = Ret tt (setGameOver false g).
Proof.
  intros Hfr Htr Hp Hb Hc Hh Hm Hmode. unfold undoMove.
  eapply bind_run; [done|]. rewrite Hh.
  rewrite bool_decide_eq_false_2 by (by destruct (moveHistory g)).
  eapply bind_run; [done|]. rewrite Hm.
  assert (Hstep : (h ← gets moveHistory;
                   match popLast h with
                   | Some (lastMove, rest) => undoLast lastMove rest;; mret None
                   | None => mret (Some tt)
                   end) g' = Ret None (setGameOver (gameOver g') g)).
  { eapply bind_run; [done|]. rewrite Hh, popLast_snoc.
    eapply bind_run; [by eapply undoLast_applied|done]. }
  destruct Hmode as [Hmode|Hnil].
  - rewrite Hmode. eapply bind_run with (a := None) (g1 := setGameOver (gameOver g') g); [|reflexivity].
    change (range 0 1) with [0]. cbn [forEach].
    eapply bind_run; [exact Hstep|reflexivity].
  - destruct (gameMode g).
    + eapply bind_run with (a := None) (g1 := setGameOver (gameOver g') g); [|reflexivity].
      change (range 0 1) with [0]. cbn [forEach].
      eapply bind_run; [exact Hstep|reflexivity].
    + eapply bind_run with (a := Some tt) (g1 := setGameOver (gameOver g') g); [|reflexivity].
      change (range 0 2) with [0; 1]. cbn [forEach].
      eapply bind_run; [exact Hstep|].
      eapply bind_run with (a := Some tt) (g1 := setGameOver (gameOver g') g); [|reflexivity].
      eapply bind_run; [reflexivity|]. cbn. by rewrite Hnil.
Qed.

(** ** The claims about moves *)

Lemma kingCount_hasKing (b : Board) c : kingCount b c = 1%nat → hasKing b c.
Proof.
  unfold kingCount. intros Hlen.
  destruct (filter _ squares8) as [|[row col] rest] eqn:E; [done|].
  assert (Hin : (row, col) ∈ filter (λ sq, isKingOf c (b !! sq) = true) squares8)
    by (rewrite E; by left).
  apply list_elem_of_filter in Hin as [Hk Hsq%elem_of_squares8].
  by exists row, col.
Qed.

Lemma hasKing_initial c : hasKing createBoard c.
Proof.
  destruct c; [exists 7, 4|exists 0, 4]; (split; [unfold inBoard; lia|reflexivity]).
Defined.

(** C1, as amended: for every game in two-player mode, or whose history is
    empty, and every move [isValidMove] accepts on its board, applying the
    move with [movePiece] pushes one entry that holds the piece as it stood
    on the origin and the piece it took, and [undoMove] then gives back the
    board the move started from, square for square (a captured piece stands
    on the destination again, a promoted pawn is a pawn again on its
    origin), together with the side to move and the history; the game-over
    flag is cleared. *)
Theorem movePiece_undo_roundtrip g fr fc tr tc :
  isValidMove (board g) fr fc tr tc = Some true →
  gameMode g = Human ∨ moveHistory g = [] →
  let g' := finalState (movePiece fr fc tr tc g) in
  moveHistory g'
  = moveHistory g
    ++ [History.mkEntry fr fc tr tc (board g !! (fr, fc)) (board g !! (tr, tc))]
  ∧ is_Some (board g !! (fr, fc))
  ∧ ∃ g3, undoMove g' = Ret tt g3
          ∧ board g3 = board g
          ∧ currentPlayer g3 = currentPlayer g
          ∧ moveHistory g3 = moveHistory g
          ∧ gameMode g3 = gameMode g
          ∧ gameOver g3 = false.
Proof.
  intros Hv Hmode g'.
  apply isValidMove_true_inv in Hv as (Hfr & Htr & p & Hp & _).
  destruct (movePiece_finalState g fr fc tr tc p Hfr Htr Hp) as (Hb & Hc & Hh & Hm).
  fold g' in Hb, Hc, Hh, Hm.
  split; [done|]. split; [by eexists|].
  exists (setGameOver false g).
  split; [by apply undoMove_applied with fr fc tr tc p|]. by destruct g.
Qed.

Lemma movePiece_undo_roundtrip_witness :
  let g := promotionCaptureGame in
  let g' := finalState (movePiece 1 0 0 1 g) in
  moveHistory g'
  = [History.mkEntry 1 0 0 1 (Some (mkPiece Pawn White)) (Some (mkPiece Rook Black))]
  ∧ is_Some (board g !! (1, 0))
  ∧ ∃ g3, undoMove g' = Ret tt g3
          ∧ board g3 = board g
          ∧ currentPlayer g3 = currentPlayer g
          ∧ moveHistory g3 = moveHistory g
          ∧ gameMode g3 = gameMode g
          ∧ gameOver g3 = false.
Proof.
  apply (movePiece_undo_roundtrip promotionCaptureGame 1 0 0 1).
  - by vm_compute.
  - by left.
Defined.

(** C1, as stated, fails: in computer mode, with the move e2-e4 already in
    the history, Black's e7-e5 applied by [movePiece] and then undone by
    [undoMove] does not give back the board before e7-e5 (the white pawn on
    e4) but the initial board, with White to move: [undoMove] took back
    both moves. *)
Lemma undoMove_takes_back_two_in_computer_mode :
  let g := finalState (movePiece 6 4 4 4 initialGame) in
  let g' := finalState (movePiece 1 4 3 4 g) in
  gameMode g = Computer
  ∧ isValidMove (board g) 1 4 3 4 = Some true
  ∧ movePiece 1 4 3 4 g = Ret tt g'
  ∧ ∃ g3, undoMove g' = Ret tt g3
          ∧ board g3 = createBoard
          ∧ board g !! (4, 4) = Some (mkPiece Pawn White)
          ∧ board g3 !! (4, 4) = None
          ∧ board g3 ≠ board g
          ∧ currentPlayer g = Black
          ∧ currentPlayer g3 = White.
Proof.
  cbn zeta.
  split; [by vm_compute|]. split; [by vm_compute|]. split; [by vm_compute|].
  exists initialGame.
  split; [by vm_compute|]. split; [done|]. split; [by vm_compute|].
  split; [by vm_compute|]. split; [|by vm_compute].
  intros Heq.
  assert (H : board initialGame !! (4, 4)
              = board (finalState (movePiece 6 4 4 4 initialGame)) !! (4, 4))
    by (by rewrite Heq).
  by vm_compute in H.
Qed.

(** C9: [movePiece], called for a piece standing on the origin, leaves
    every square other than the origin and the destination as it was; the
    origin ends empty, the destination holds the moved piece (a queen for a
    pawn reaching row 0 or row 7), and exactly one entry is appended to the
    move history.  This holds for the state in which the call ends, whether
    it returns or raises while looking for check. *)
Theorem movePiece_frame g fr fc tr tc p :
  0 ≤ fr < 8 → 0 ≤ tr < 8 → board g !! (fr, fc) = Some p →
  let g' := finalState (movePiece fr fc tr tc g) in
  (∀ r c, (r, c) ≠ (fr, fc) → (r, c) ≠ (tr, tc) →
          board g' !! (r, c) = board g !! (r, c))
  ∧ board g' !! (fr, fc) = None
  ∧ ((fr, fc) ≠ (tr, tc) → board g' !! (tr, tc) = Some (promote p tr))
  ∧ moveHistory g' =
      moveHistory g ++ [History.mkEntry fr fc tr tc (Some p) (board g !! (tr, tc))].
Proof.
  intros Hfr%validRow_true Htr%validRow_true Hp g'.
  destruct (movePiece_finalState g fr fc tr tc p Hfr Htr Hp) as (Hb & _ & Hh & _).
  fold g' in Hb, Hh. rewrite Hb, Hh. unfold entryOf. rewrite Hp.
  split; [|split; [|split; [|done]]].
  - intros r c Hnf Hnt. rewrite movedBoard_lookup.
    rewrite decide_False by congruence. by rewrite decide_False by congruence.
  - rewrite movedBoard_lookup. by rewrite decide_True.
  - intros Hne. rewrite movedBoard_lookup.
    rewrite decide_False by done. by rewrite decide_True.
Qed.

Lemma movePiece_frame_witness :
  let g := promotionCaptureGame in
  let g' := finalState (movePiece 1 0 0 1 g) in
  (∀ r c, (r, c) ≠ (1, 0) → (r, c) ≠ (0, 1) →
          board g' !! (r, c) = board g !! (r, c))
  ∧ board g' !! (1, 0) = None
  ∧ ((1, 0) ≠ (0, 1) → board g' !! (0, 1) = Some (mkPiece Queen White))
  ∧ moveHistory g' =
      [History.mkEntry 1 0 0 1 (Some (mkPiece Pawn White)) (Some (mkPiece Rook Black))].
Proof.
  apply (movePiece_frame promotionCaptureGame 1 0 0 1 (mkPiece Pawn White));
    [lia|lia|reflexivity].
Defined.

(** ** The claims about check, checkmate and the evaluation *)

(** C4: on every board with exactly one king of each colour,
    [isCheckmate(side)] returns (leaving the board as it was) false if the
    side is not in check, and otherwise true exactly when no pseudo-legal
    move of one of the side's pieces, tentatively applied, leaves the side's
    king out of check. *)
Theorem isCheckmate_spec g side :
  kingCount (board g) White = 1%nat → kingCount (board g) Black = 1%nat →
  ∃ inCheck mate,
    isKingInCheck (board g) side = Some inCheck
    ∧ isCheckmate side g = Ret mate g
    ∧ (inCheck = false → mate = false)
    ∧ (inCheck = true →
       (mate = true ↔
        ∀ m, pseudoLegal (board g) side m →
             isKingInCheck (afterMove (board g) m) side ≠ Some false)).
Proof.
  intros HW HB.
  assert (Hk : hasKing (board g) side)
    by (destruct side; by apply kingCount_hasKing).
  exists (checkB (board g) side),
         (checkB (board g) side && bool_decide (legalMovesOf (board g) side = [])).
  split; [by apply isKingInCheck_defined|].
  split; [by apply isCheckmate_run|].
  split; [by intros ->|]. intros ->. cbn [andb].
  rewrite bool_decide_eq_true, legalMovesOf_nil by done.
  unfold legalMove, afterMove. split.
  - intros Hno m Hm Hc. by apply (Hno m).
  - intros Hno m [Hm Hc]. by apply (Hno m Hm).
Qed.

Lemma isCheckmate_spec_witness :
  ∃ inCheck mate,
    isKingInCheck createBoard White = Some inCheck
    ∧ isCheckmate White initialGame = Ret mate initialGame
    ∧ (inCheck = false → mate = false)
    ∧ (inCheck = true →
       (mate = true ↔
        ∀ m, pseudoLegal createBoard White m →
             isKingInCheck (afterMove createBoard m) White ≠ Some false)).
Proof. apply (isCheckmate_spec initialGame White); reflexivity. Defined.




(** *** The class that is never defined *)

Lemma classDefined_false : classDefined = false.
Proof. reflexivity. Qed.

Lemma called_raises {A} (body : M A) g : called body g = Throw g.
Proof. unfold called. by rewrite classDefined_false. Qed.

(** C5: the code does not do what the claim says.  [minimax] binds the
    name [eval] in strict code; the script of the class is refused when it
    is read, so that [minimax] is never defined: every call of it raises,
    also at a node of positive depth where the side to move has no legal
    move, where the claim has it return -1000, 1000 or 0. *)
Theorem minimax_never_returns depth alpha beta isMaximizing aiColor g :
  earlySyntaxError = true
  ∧ minimax depth alpha beta isMaximizing aiColor g = Throw g.
Proof. split; [reflexivity|]. unfold minimax. apply called_raises. Qed.

(** C6: the code does not do what the claim says.  [evaluatePosition] is a
    method of the class whose script is refused when it is read: every
    call of it raises, where the claim has it return the material balance
    with the bonuses for check and checkmate. *)
Theorem evaluatePosition_never_returns aiColor g :
  earlySyntaxError = true
  ∧ evaluatePosition aiColor g = Throw g.
Proof. split; [reflexivity|]. unfold evaluatePosition. apply called_raises. Qed.

(** ** The claims about the outcome of a move and the move selector *)

(** C8, as amended: after [movePiece] has moved a piece, the game is
    flagged as over exactly when it already was or the new side to move is
    checkmated (in check with no legal move).  Check alone leaves the flag
    as it was, and so does stalemate, which [movePiece] does not look for.
    This holds for the state in which the call ends; the call returns
    whenever the new side to move has a king on the board. *)
Theorem movePiece_gameOver g fr fc tr tc p :
  0 ≤ fr < 8 → 0 ≤ tr < 8 → board g !! (fr, fc) = Some p →
  let g' := finalState (movePiece fr fc tr tc g) in
  board g' = movedBoard (board g) fr fc tr tc p
  ∧ currentPlayer g' = opponentOf (currentPlayer g)
  ∧ (gameOver g' = true ↔
     gameOver g = true ∨ checkmated (board g') (currentPlayer g'))
  ∧ (stalemated (board g') (currentPlayer g') → gameOver g' = gameOver g)
  ∧ (hasKing (board g') (currentPlayer g') → movePiece fr fc tr tc g = Ret tt g').
Proof.
  intros Hfr%validRow_true Htr%validRow_true Hp.
  pose proof (movePiece_outcome g fr fc tr tc p Hfr Htr Hp) as Hout.
  cbn zeta in *. rewrite Hout. clear Hout.
  set (g1 := applied g fr fc tr tc p).
  destruct (isKingInCheck (board g1) (currentPlayer g1)) as [[]|] eqn:Hchk.
  - pose proof (isKingInCheck_true_hasKing _ _ Hchk) as Hk.
    pose proof (legalMovesOf_nil _ _ Hk) as Hnil.
    destruct (bool_decide (legalMovesOf (board g1) (currentPlayer g1) = [])) eqn:Hl.
    + apply bool_decide_eq_true in Hl.
      split; [done|]. split; [done|]. split; [|split; [|done]].
      * split; [|done]. intros _. right. split; [done|]. by apply Hnil.
      * intros [Hc _].
        change (isKingInCheck (board g1) (currentPlayer g1) = Some false) in Hc.
        congruence.
    + apply bool_decide_eq_false in Hl.
      split; [done|]. split; [done|]. split; [|done].
      split; [by left|]. intros [?|[_ Hno]]; [done|].
      exfalso. apply Hl. by apply Hnil.
  - split; [done|]. split; [done|]. split; [|done].
    split; [by left|]. intros [?|[Hc _]]; [done|].
    change (isKingInCheck (board g1) (currentPlayer g1) = Some true) in Hc.
    congruence.
  - split; [done|]. split; [done|]. split; [|split].
    + split; [by left|]. intros [?|[Hc _]]; [done|].
      change (isKingInCheck (board g1) (currentPlayer g1) = Some true) in Hc.
      congruence.
    + done.
    + intros Hk. change (hasKing (board g1) (currentPlayer g1)) in Hk.
      rewrite (isKingInCheck_defined _ _ Hk) in Hchk. done.
Qed.

Lemma movePiece_gameOver_witness :
  let g' := finalState (movePiece 2 7 2 1 beforeStalemateGame) in
  board g' = movedBoard beforeStalemate 2 7 2 1 (mkPiece Queen White)
  ∧ currentPlayer g' = Black
  ∧ (gameOver g' = true ↔ false = true ∨ checkmated (board g') (currentPlayer g'))
  ∧ (stalemated (board g') (currentPlayer g') → gameOver g' = false)
  ∧ (hasKing (board g') (currentPlayer g') →
     movePiece 2 7 2 1 beforeStalemateGame = Ret tt g').
Proof.
  apply (movePiece_gameOver beforeStalemateGame 2 7 2 1 (mkPiece Queen White));
    [lia|lia|reflexivity].
Defined.

(** C8, as stated, fails: the queen's move from h6 to b6 stalemates Black
    (not in check, no legal move), and [movePiece] returns with the game
    not flagged as over. *)
Lemma movePiece_stalemate_not_flagged :
  ∃ g', movePiece 2 7 2 1 beforeStalemateGame = Ret tt g'
        ∧ g' = setMoveHistory (moveHistory g') stalemateGame
        ∧ stalemated (board g') (currentPlayer g')
        ∧ gameOver g' = false.
Proof.
  assert (Hk : hasKing (board stalemateGame) Black)
    by (exists 0, 0; split; [unfold inBoard; lia|reflexivity]).
  eexists. split; [by vm_compute|]. split; [by vm_compute|]. split; [|done].
  split; [by vm_compute|].
  apply (legalMovesOf_nil _ _ Hk). by vm_compute.
Qed.

(** C7: the code does not do what the claim says.  [getBestMove] is a
    method of the class whose script is refused when it is read: for every
    board, side and difficulty the call raises, also when the side has a
    legal move, where the claim has a move returned rather than an
    exception; and it never returns null. *)
Theorem getBestMove_never_returns difficulty below randomIndex aiColor g :
  earlySyntaxError = true
  ∧ getBestMove difficulty below randomIndex aiColor g = Throw g.
Proof. split; [reflexivity|]. unfold getBestMove. apply called_raises. Qed.

(** ** Bounds of the legality check *)

Lemma validRow_false r : validRow r = false ↔ ¬ (0 ≤ r < 8).
Proof. rewrite <- validRow_true. by destruct (validRow r). Qed.

(** X1: [isValidMove] returns a boolean for every pair of squares whose
    rows are rows of the grid, whatever the columns among the integers a
    JavaScript number holds exactly (between -2^53 and 2^53); it raises
    when the origin row is off the grid; on an empty origin it returns
    false even for a destination off the grid; and it raises when a piece
    stands on the origin and the destination row is off the grid, as it is
    for the sentinel (-1, -1) of [isKingInCheck]. *)
Theorem isValidMove_bounds (b : Board) fr fc tr tc :
  (0 ≤ fr < 8 → 0 ≤ tr < 8 → safeInteger fc → safeInteger tc →
   is_Some (isValidMove b fr fc tr tc))
  ∧ (¬ 0 ≤ fr < 8 → isValidMove b fr fc tr tc = None)
  ∧ (0 ≤ fr < 8 → b !! (fr, fc) = None → isValidMove b fr fc tr tc = Some false)
  ∧ (0 ≤ fr < 8 → is_Some (b !! (fr, fc)) → ¬ 0 ≤ tr < 8 →
     isValidMove b fr fc tr tc = None).
Proof.
  split; [|split; [|split]].
  - intros Hfr%validRow_true Htr%validRow_true _ _. by apply isValidMove_defined.
  - intros Hfr%validRow_false. unfold isValidMove, getSq. by rewrite Hfr.
  - intros Hfr%validRow_true Hp. unfold isValidMove, getSq. by rewrite Hfr, Hp.
  - intros Hfr%validRow_true [p Hp] Htr%validRow_false.
    unfold isValidMove, getSq. by rewrite Hfr, Hp, Htr.
Qed.

Lemma isValidMove_bounds_witness :
  is_Some (isValidMove createBoard 6 4 4 4)
  ∧ isValidMove createBoard 8 0 0 0 = None
  ∧ isValidMove createBoard 4 4 (-1) (-1) = Some false
  ∧ isValidMove createBoard 7 4 (-1) (-1) = None.
Proof.
  destruct (isValidMove_bounds createBoard 6 4 4 4) as (H1 & _).
  destruct (isValidMove_bounds createBoard 8 0 0 0) as (_ & H2 & _).
  destruct (isValidMove_bounds createBoard 4 4 (-1) (-1)) as (_ & _ & H3 & _).
  destruct (isValidMove_bounds createBoard 7 4 (-1) (-1)) as (_ & _ & _ & H4).
  split; [apply H1; unfold safeInteger; lia|]. split; [apply H2; lia|].
  split; [apply H3; [lia|reflexivity]|].
  apply H4; [lia|by eexists|lia].
Defined.

(** ** Which king is looked at, and what happens without one *)

Lemma firstSome_first {I A} (f : I → option A) xs v :
  firstSome f xs = Some v →
  ∃ pre x post, xs = pre ++ x :: post ∧ f x = Some v ∧ ∀ y, y ∈ pre → f y = None.
Proof.
  induction xs as [|x xs IH]; simpl; [done|].
  destruct (f x) eqn:Hfx.
  - intros [= <-]. exists [], x, xs. split; [done|]. split; [done|].
    intros y Hy. by apply elem_of_nil in Hy.
  - intros (pre & z & post & -> & Hz & Hpre)%IH.
    exists (x :: pre), z, post. split; [done|]. split; [done|].
    intros y [->|Hy]%elem_of_cons; auto.
Qed.

Lemma range8_sorted : StronglySorted Z.lt range8.
Proof. repeat constructor. Qed.

Lemma range8_split_before pre x post y :
  range8 = pre ++ x :: post → y ∈ range8 → y ∉ pre → x ≤ y.
Proof.
  intros Hsplit Hy Hpre. pose proof range8_sorted as Hs. rewrite Hsplit in Hs, Hy.
  apply elem_of_app in Hy as [Hy|Hy]; [done|].
  apply elem_of_cons in Hy as [->|Hy]; [lia|].
  apply StronglySorted_app_1_r in Hs.
  apply StronglySorted_inv in Hs as [_ Hall].
  rewrite Forall_forall in Hall. apply Hall in Hy. lia.
Qed.

Lemma kingSquare_first (b : Board) c row col :
  inBoard row col → isKingOf c (b !! (row, col)) = true →
  (kingSquare b c).1 < row
  ∨ ((kingSquare b c).1 = row ∧ (kingSquare b c).2 ≤ col).
Proof.
  intros [Hrow%elem_of_range8 Hcol%elem_of_range8] Hk.
  unfold kingSquare.
  destruct (firstSome _ range8) as [[kr kc]|] eqn:Hf; simpl.
  - apply firstSome_first in Hf as (pre & r0 & post & Hsplit & Hf & Hpre).
    apply firstSome_first in Hf as (pre' & c0 & post' & Hsplit' & Hf & Hpre').
    destruct (isKingOf c (b !! (r0, c0))) eqn:Hk0; [|done].
    injection Hf as <- <-.
    assert (Hrow' : row ∉ pre).
    { intros Hin. apply Hpre in Hin. rewrite firstSome_None in Hin.
      specialize (Hin col Hcol). by rewrite Hk in Hin. }
    pose proof (range8_split_before _ _ _ _ Hsplit Hrow Hrow') as Hle.
    destruct (decide (r0 = row)) as [->|Hne]; [|left; lia].
    right. split; [done|].
    apply (range8_split_before _ _ _ _ Hsplit' Hcol).
    intros Hin. apply Hpre' in Hin. by rewrite Hk in Hin.
  - rewrite firstSome_None in Hf. specialize (Hf row Hrow).
    rewrite firstSome_None in Hf. specialize (Hf col Hcol).
    by rewrite Hk in Hf.
Qed.

(** X2: with a king of the colour on the grid, [isKingInCheck] returns a
    boolean, and it returns true exactly when some piece of the other
    colour on the grid has a move [isValidMove] accepts onto the square of
    the colour's first king in row-major order; another king of the same
    colour further on is not looked at. *)
Theorem isKingInCheck_spec (b : Board) c :
  hasKing b c →
  let king := kingSquare b c in
  inBoard king.1 king.2
  ∧ isKingOf c (b !! king) = true
  ∧ (∀ row col, inBoard row col → isKingOf c (b !! (row, col)) = true →
       king.1 < row ∨ (king.1 = row ∧ king.2 ≤ col))
  ∧ is_Some (isKingInCheck b c)
  ∧ (isKingInCheck b c = Some true ↔
     ∃ row col p, inBoard row col ∧ b !! (row, col) = Some p
       ∧ color p = opponentOf c
       ∧ isValidMove b row col king.1 king.2 = Some true).
Proof.
  intros Hk king.
  destruct (kingSquare_hasKing b c Hk) as [Hin Hking].
  split; [done|]. split; [done|]. split; [by apply kingSquare_first|].
  pose proof (isKingInCheck_defined b c Hk) as Hdef.
  split; [by eexists|]. split.
  - intros H. by apply isKingInCheck_Some_inv in H.
  - intros (row & col & p & Hsq & Hp & Hc & Hv).
    rewrite Hdef. f_equal. destruct (checkB b c) eqn:E; [done|].
    pose proof (isKingInCheck_Some_inv _ _ _ Hdef row col p Hsq Hp Hc) as Hno.
    fold king in Hno. congruence.
Qed.

Lemma isKingInCheck_spec_witness :
  let king := kingSquare kingEnPrise Black in
  inBoard king.1 king.2
  ∧ isKingOf Black (kingEnPrise !! king) = true
  ∧ (∀ row col, inBoard row col → isKingOf Black (kingEnPrise !! (row, col)) = true →
       king.1 < row ∨ (king.1 = row ∧ king.2 ≤ col))
  ∧ is_Some (isKingInCheck kingEnPrise Black)
  ∧ (isKingInCheck kingEnPrise Black = Some true ↔
     ∃ row col p, inBoard row col ∧ kingEnPrise !! (row, col) = Some p
       ∧ color p = opponentOf Black
       ∧ isValidMove kingEnPrise row col king.1 king.2 = Some true).
Proof.
  apply (isKingInCheck_spec kingEnPrise Black).
  exists 0, 0. split; [unfold inBoard; lia|reflexivity].
Defined.

(** X3: without a king of the colour on the grid, [isKingInCheck] raises
    as soon as a piece of the other colour stands on the grid (it asks
    [isValidMove] for a move onto row -1), and returns false when none
    does. *)
Theorem isKingInCheck_without_king (b : Board) c :
  ¬ hasKing b c →
  ((∃ row col p, inBoard row col ∧ b !! (row, col) = Some p
      ∧ color p = opponentOf c) →
   isKingInCheck b c = None)
  ∧ ((∀ row col p, inBoard row col → b !! (row, col) = Some p →
        color p ≠ opponentOf c) →
     isKingInCheck b c = Some false).
Proof.
  intros Hno. split; [by apply isKingInCheck_no_king|].
  destruct (kingSquare_cases b c) as [[Hin Hk]|[Hks _]].
  { exfalso. apply Hno. destruct (kingSquare b c) as [kr kc]. by exists kr, kc. }
  intros Hnone. unfold isKingInCheck. rewrite findKing_run, Hks. cbn.
  rewrite (forEach_opt_run _ _ (λ _, None)); [by rewrite firstSome_const_None|].
  intros row Hrow.
  rewrite (forEach_opt_run _ _ (λ _, None)); [by rewrite firstSome_const_None|].
  intros col Hcol. rewrite (scan_without_king _ _ _ _ Hrow).
  destruct (b !! (row, col)) as [p|] eqn:Hp; [|done].
  rewrite bool_decide_eq_false_2; [done|].
  apply (Hnone row col p); [|done]. split; by apply elem_of_range8.
Qed.

Lemma isKingInCheck_without_king_witness :
  isKingInCheck {[(0, 1) := mkPiece Rook White]} Black = None
  ∧ isKingInCheck ∅ Black = Some false.
Proof.
  split.
  - apply (isKingInCheck_without_king {[(0, 1) := mkPiece Rook White]} Black).
    + intros (row & col & _ & Hk). rewrite lookup_singleton in Hk.
      by destruct (decide ((0, 1) = (row, col))).
    + exists 0, 1, (mkPiece Rook White).
      split; [unfold inBoard; lia|]. split; reflexivity.
  - apply (isKingInCheck_without_king ∅ Black).
    + intros (row & col & _ & Hk). by rewrite lookup_empty in Hk.
    + intros row col p _ Hp. by rewrite lookup_empty in Hp.
Defined.

(** ** Edge cases of applying and undoing *)

(** X4: [movePiece] called for an empty origin square of the grid raises
    (it reads the type of [null]) after it has pushed an entry: the board,
    the side to move and the flag are as before, but the history is one
    entry longer.  Called with an origin or a destination row off the
    grid, it raises before it changes anything. *)
Theorem movePiece_empty_origin g fr fc tr tc :
  (0 ≤ fr < 8 → 0 ≤ tr < 8 → board g !! (fr, fc) = None →
   movePiece fr fc tr tc g =
     Throw (setMoveHistory
              (moveHistory g ++
                 [History.mkEntry fr fc tr tc None (board g !! (tr, tc))]) g))
  ∧ (¬ (0 ≤ fr < 8 ∧ 0 ≤ tr < 8) → movePiece fr fc tr tc g = Throw g).
Proof.
  split.
  - intros Hfr%validRow_true Htr%validRow_true Hp. unfold movePiece.
    eapply bind_run; [by apply readSq_run|].
    eapply bind_run; [by apply readSq_run|].
    eapply bind_run; [done|]. by rewrite Hp.
  - intros Hoff. unfold movePiece.
    destruct (validRow fr) eqn:Hfr.
    + eapply bind_run; [by apply readSq_run|].
      apply bind_throw. unfold readSq, liftR, getSq.
      destruct (validRow tr) eqn:Htr; [|done].
      apply validRow_true in Hfr, Htr. tauto.
    + apply bind_throw. unfold readSq, liftR, getSq. by rewrite Hfr.
Qed.

Lemma movePiece_empty_origin_witness :
  movePiece 4 4 3 4 initialGame =
    Throw (setMoveHistory [History.mkEntry 4 4 3 4 None None] initialGame)
  ∧ movePiece 6 4 8 4 initialGame = Throw initialGame.
Proof.
  destruct (movePiece_empty_origin initialGame 4 4 3 4) as [H1 _].
  destruct (movePiece_empty_origin initialGame 6 4 8 4) as [_ H2].
  split; [apply H1; [lia|lia|reflexivity]|apply H2; lia].
Defined.

Lemma undoLast_run e rest g :
  entryOnGrid e →
  undoLast e rest g =
    Ret tt (mkGame (undoneBoard (board g) e) (opponentOf (currentPlayer g))
              (gameOver g) rest (gameMode g)).
Proof.
  intros [Hf%validRow_true Ht%validRow_true]. unfold undoLast.
  eapply bind_run; [done|].
  eapply bind_run; [by apply writeSq_run|].
  eapply bind_run; [by apply writeSq_run|]. done.
Qed.

Lemma undoStep_run g h e :
  moveHistory g = h ++ [e] → entryOnGrid e →
  (h' ← gets moveHistory;
   match popLast h' with
   | Some (lastMove, rest) => undoLast lastMove rest;; mret None
   | None => mret (Some tt)
   end) g
  = Ret None (mkGame (undoneBoard (board g) e) (opponentOf (currentPlayer g))
                (gameOver g) h (gameMode g)).
Proof.
  intros Hh He. eapply bind_run; [done|]. rewrite Hh, popLast_snoc.
  eapply bind_run; [by apply undoLast_run|done].
Qed.

Lemma undoMove_empty g : moveHistory g = [] → undoMove g = Ret tt g.
Proof.
  intros Hh. unfold undoMove. eapply bind_run; [done|].
  by rewrite Hh, bool_decide_eq_true_2.
Qed.

Lemma undoMove_one g : ∀ h e,
  moveHistory g = h ++ [e] → entryOnGrid e → gameMode g = Human ∨ h = [] →
  undoMove g =
    Ret tt (mkGame (undoneBoard (board g) e) (opponentOf (currentPlayer g))
              false h (gameMode g)).
Proof.
  intros h e Hh He Hmode.
  pose proof (undoStep_run g h e Hh He) as Hstep.
  destruct g as [b cp go mh gm]. cbn in Hh, Hmode, Hstep |- *. subst mh.
  set (g0 := mkGame b cp go (h ++ [e]) gm) in *.
  set (g1 := mkGame (undoneBoard b e) (opponentOf cp) go h gm) in *.
  unfold undoMove.
  eapply bind_run; [done|]. cbn [moveHistory g0].
  rewrite bool_decide_eq_false_2 by (by destruct h).
  eapply bind_run; [done|]. cbn [gameMode g0].
  destruct gm.
  + eapply bind_run with (a := None) (g1 := g1); [|reflexivity].
    change (range 0 1) with [0]. cbn [forEach].
    eapply bind_run; [exact Hstep|reflexivity].
  + destruct Hmode as [?| ->]; [done|].
    eapply bind_run with (a := Some tt) (g1 := g1); [|reflexivity].
    change (range 0 2) with [0; 1]. cbn [forEach].
    eapply bind_run; [exact Hstep|].
    eapply bind_run with (a := Some tt) (g1 := g1); [|reflexivity].
    eapply bind_run; [reflexivity|]. reflexivity.
Qed.

Lemma undoMove_two g : ∀ h e1 e2,
  moveHistory g = h ++ [e1; e2] → entryOnGrid e1 → entryOnGrid e2 →
  gameMode g = Computer →
  undoMove g =
    Ret tt (mkGame (undoneBoard (undoneBoard (board g) e2) e1) (currentPlayer g)
              false h (gameMode g)).
Proof.
  intros h e1 e2 Hh He1 He2 Hmode.
  pose proof (undoStep_run g (h ++ [e1]) e2) as Hstep2.
  rewrite <- app_assoc in Hstep2. specialize (Hstep2 Hh He2).
  destruct g as [b cp go mh gm]. cbn in Hh, Hmode, Hstep2 |- *. subst mh gm.
  set (g0 := mkGame b cp go (h ++ [e1; e2]) Computer) in *.
  set (g1 := mkGame (undoneBoard b e2) (opponentOf cp) go (h ++ [e1]) Computer) in *.
  pose proof (undoStep_run g1 h e1 eq_refl He1) as Hstep1.
  set (g2 := mkGame (undoneBoard (undoneBoard b e2) e1)
               (opponentOf (opponentOf cp)) go h Computer).
  unfold undoMove.
  eapply bind_run; [done|]. cbn [moveHistory g0].
  rewrite bool_decide_eq_false_2 by (by destruct h).
  eapply bind_run; [done|]. cbn [gameMode g0].
  eapply bind_run with (a := None) (g1 := g2).
  + change (range 0 2) with [0; 1]. cbn [forEach].
    eapply bind_run; [exact Hstep2|].
    eapply bind_run; [exact Hstep1|reflexivity].
  + unfold g2, modify, setGameOver. cbn. by rewrite opponentOf_involutive.
Qed.

(** X5: [undoMove] does nothing at all on an empty history (the flag
    stays as it is).  Otherwise it clears the flag and undoes the last
    entry, and in computer mode the one before it as well when there is
    one.  For entries that hold a piece (those [movePiece] pushed for a
    piece standing on its origin), each undone entry is popped, its piece
    put back on its origin, its captured piece (or nothing) on its
    destination, and the turn passed back. *)
Theorem undoMove_spec g :
  (moveHistory g = [] → undoMove g = Ret tt g)
  ∧ (∀ h e, moveHistory g = h ++ [e] → entryOnGrid e →
       is_Some (History.piece e) →
       gameMode g = Human ∨ h = [] →
       undoMove g =
         Ret tt (mkGame (undoneBoard (board g) e) (opponentOf (currentPlayer g))
                   false h (gameMode g)))
  ∧ (∀ h e1 e2, moveHistory g = h ++ [e1; e2] → entryOnGrid e1 → entryOnGrid e2 →
       is_Some (History.piece e1) → is_Some (History.piece e2) →
       gameMode g = Computer →
       undoMove g =
         Ret tt (mkGame (undoneBoard (undoneBoard (board g) e2) e1) (currentPlayer g)
                   false h (gameMode g))).
Proof.
  split; [apply undoMove_empty|]. split.
  - intros h e Hh He _. by apply undoMove_one.
  - intros h e1 e2 Hh He1 He2 _ _. by apply undoMove_two.
Qed.

Lemma entryOf_onGrid (b : Board) fr fc tr tc :
  0 ≤ fr < 8 → 0 ≤ tr < 8 → entryOnGrid (entryOf b fr fc tr tc).
Proof. by split. Qed.

Lemma undoMove_spec_witness :
  undoMove initialGame = Ret tt initialGame
  ∧ undoMove (finalState (movePiece 6 4 4 4 initialGame)) = Ret tt initialGame.
Proof.
  destruct (undoMove_spec initialGame) as [H1 _].
  destruct (undoMove_spec (finalState (movePiece 6 4 4 4 initialGame))) as (_ & H2 & _).
  split; [by apply H1|].
  rewrite (H2 [] (History.mkEntry 6 4 4 4 (Some (mkPiece Pawn White)) None)).
  - by vm_compute.
  - by vm_compute.
  - split; cbn; lia.
  - by eexists.
  - by right.
Defined.

(** X6: in computer mode one call of [undoMove] takes back two moves: after
    two applications of [movePiece], each for a piece standing on its
    origin, it restores the board, the side to move and the history of
    before the first, and clears the flag. *)
Theorem undoMove_two_plies g fr1 fc1 tr1 tc1 p1 fr2 fc2 tr2 tc2 p2 :
  gameMode g = Computer →
  0 ≤ fr1 < 8 → 0 ≤ tr1 < 8 → board g !! (fr1, fc1) = Some p1 →
  let g1 := finalState (movePiece fr1 fc1 tr1 tc1 g) in
  0 ≤ fr2 < 8 → 0 ≤ tr2 < 8 → board g1 !! (fr2, fc2) = Some p2 →
  let g2 := finalState (movePiece fr2 fc2 tr2 tc2 g1) in
  undoMove g2 = Ret tt (setGameOver false g).
Proof.
  intros Hmode Hfr1 Htr1 Hp1 g1 Hfr2 Htr2 Hp2 g2.
  pose proof Hfr1 as Hvf1%validRow_true. pose proof Htr1 as Hvt1%validRow_true.
  pose proof Hfr2 as Hvf2%validRow_true. pose proof Htr2 as Hvt2%validRow_true.
  destruct (movePiece_finalState g fr1 fc1 tr1 tc1 p1 Hvf1 Hvt1 Hp1)
    as (Hb1 & Hc1 & Hh1 & Hm1). fold g1 in Hb1, Hc1, Hh1, Hm1.
  destruct (movePiece_finalState g1 fr2 fc2 tr2 tc2 p2 Hvf2 Hvt2 Hp2)
    as (Hb2 & Hc2 & Hh2 & Hm2). fold g2 in Hb2, Hc2, Hh2, Hm2.
  rewrite (undoMove_two g2 (moveHistory g) (entryOf (board g) fr1 fc1 tr1 tc1)
             (entryOf (board g1) fr2 fc2 tr2 tc2)).
  - f_equal. destruct g as [b cp go mh gm]. unfold setGameOver. cbn in *.
    rewrite Hc2, Hc1, opponentOf_involutive, Hm2, Hm1, Hb2.
    unfold undoneBoard, entryOf at 1 2 3 4 5 6. cbn.
    rewrite (movedBoard_undone (board g1) fr2 fc2 tr2 tc2 p2 Hp2), Hb1.
    unfold entryOf. cbn.
    by rewrite (movedBoard_undone b fr1 fc1 tr1 tc1 p1 Hp1).
  - rewrite Hh2, Hh1. by rewrite <- app_assoc.
  - by apply entryOf_onGrid.
  - by apply entryOf_onGrid.
  - by rewrite Hm2, Hm1.
Qed.

Lemma undoMove_two_plies_witness :
  undoMove (finalState (movePiece 1 4 3 4 (finalState (movePiece 6 4 4 4 initialGame))))
  = Ret tt initialGame.
Proof.
  apply (undoMove_two_plies initialGame 6 4 4 4 (mkPiece Pawn White)
           1 4 3 4 (mkPiece Pawn Black)); try lia; reflexivity.
Defined.

Lemma snoc_cases {A} (l : list A) : l = [] ∨ ∃ h e, l = h ++ [e].
Proof.
  induction l as [|x l IH] using rev_ind; [by left|]. right. by exists l, x.
Qed.

Lemma even_length_snoc {A} (l : list A) x :
  Nat.even (length (l ++ [x])) = negb (Nat.even (length l)).
Proof.
  rewrite length_app. simpl. rewrite Nat.add_1_r, Nat.even_succ.
  by rewrite <- Nat.negb_even.
Qed.

Lemma turn_flip (h : list History.entry) e c :
  c = (if Nat.even (length (h ++ [e])) then White else Black) →
  opponentOf c = (if Nat.even (length h) then White else Black).
Proof. rewrite even_length_snoc. intros ->. by destruct (Nat.even (length h)). Qed.

Lemma turn_flip_back (h : list History.entry) e c :
  c = (if Nat.even (length h) then White else Black) →
  opponentOf c = (if Nat.even (length (h ++ [e])) then White else Black).
Proof. rewrite even_length_snoc. intros ->. by destruct (Nat.even (length h)). Qed.

(** X7: a new game has White to move on an empty history, and two facts
    are kept from there by every [movePiece] for a piece standing on its
    origin and by every [undoMove]: the side to move is White exactly when
    the history holds an even number of entries, and every entry names rows
    of the grid; under them [undoMove] always returns. *)
Theorem turn_and_history_invariant g :
  turnMatchesHistory initialGame ∧ Forall entryOnGrid (moveHistory initialGame)
  ∧ (turnMatchesHistory g → Forall entryOnGrid (moveHistory g) →
     (∀ fr fc tr tc p,
        0 ≤ fr < 8 → 0 ≤ tr < 8 → board g !! (fr, fc) = Some p →
        let g' := finalState (movePiece fr fc tr tc g) in
        turnMatchesHistory g' ∧ Forall entryOnGrid (moveHistory g'))
     ∧ ∃ g', undoMove g = Ret tt g'
             ∧ turnMatchesHistory g' ∧ Forall entryOnGrid (moveHistory g')).
Proof.
  split; [done|]. split; [by constructor|].
  intros Hturn Hgrid. split.
  - intros fr fc tr tc p Hfr Htr Hp g'.
    pose proof Hfr as Hvf%validRow_true. pose proof Htr as Hvt%validRow_true.
    destruct (movePiece_finalState g fr fc tr tc p Hvf Hvt Hp) as (_ & Hc & Hh & _).
    fold g' in Hc, Hh. unfold turnMatchesHistory. rewrite Hc, Hh. split.
    + by apply turn_flip_back.
    + apply Forall_app. split; [done|]. constructor; [|done].
      by apply entryOf_onGrid.
  - unfold turnMatchesHistory in *.
    destruct (snoc_cases (moveHistory g)) as [Hh|(h & e & Hh)].
    { exists g. split; [by apply undoMove_empty|]. by split. }
    rewrite Hh in Hturn, Hgrid.
    apply Forall_app in Hgrid as [Hgrid He%Forall_inv].
    destruct (gameMode g) eqn:Hmode.
    + eexists. split; [by apply (undoMove_one g h e); [| |left]|]. cbn.
      split; [by eapply turn_flip|done].
    + destruct (snoc_cases h) as [->|(h1 & e1 & ->)].
      * eexists. split; [by apply (undoMove_one g [] e); [| |right]|]. cbn.
        split; [by apply (turn_flip [] e)|done].
      * apply Forall_app in Hgrid as [Hgrid He1%Forall_inv].
        eexists. split.
        { apply (undoMove_two g h1 e1 e); try done. by rewrite Hh, <- app_assoc. }
        cbn. split; [|done].
        rewrite !even_length_snoc, negb_involutive in Hturn. done.
Qed.

Lemma turn_and_history_invariant_witness :
  let g' := finalState (movePiece 6 4 4 4 initialGame) in
  (turnMatchesHistory g' ∧ Forall entryOnGrid (moveHistory g'))
  ∧ ∃ g'', undoMove initialGame = Ret tt g''
           ∧ turnMatchesHistory g'' ∧ Forall entryOnGrid (moveHistory g'').
Proof.
  destruct (turn_and_history_invariant initialGame) as (Hturn & Hgrid & Hkeep).
  destruct (Hkeep Hturn Hgrid) as [Hmove Hundo].
  split; [|exact Hundo].
  apply (Hmove 6 4 4 4 (mkPiece Pawn White)); [lia|lia|reflexivity].
Defined.

(** ** The rules of the pieces *)

Lemma anyOccupied_run (b : Board) sqs :
  (∀ r c, (r, c) ∈ sqs → validRow r = true) →
  anyOccupied b sqs
  = Some (default false
            (firstSome (λ '(r, c), if occupied (b !! (r, c)) then Some true else None) sqs)).
Proof.
  intros Hv. unfold anyOccupied.
  rewrite (forEach_opt_run sqs _
             (λ '(r, c), if occupied (b !! (r, c)) then Some true else None)); [done|].
  intros [r c] Hin. by rewrite (getSq_valid _ _ _ (Hv r c Hin)).
Qed.

Lemma anyOccupied_false (b : Board) sqs :
  (∀ r c, (r, c) ∈ sqs → validRow r = true) →
  anyOccupied b sqs = Some false ↔ ∀ sq, sq ∈ sqs → b !! sq = None.
Proof.
  intros Hv. rewrite (anyOccupied_run _ _ Hv).
  destruct (firstSome _ sqs) as [v|] eqn:E; simpl.
  - apply firstSome_Some in E as ([r c] & Hin & E).
    destruct (b !! (r, c)) as [p|] eqn:Hp; [|done]. simpl in E. injection E as <-.
    split; [done|]. intros H. apply H in Hin. congruence.
  - split; [|done]. intros _ [r c] Hin.
    rewrite firstSome_None in E. specialize (E _ Hin). simpl in E.
    by destruct (b !! (r, c)).
Qed.

Lemma negb_anyOccupied (b : Board) sqs :
  (∀ r c, (r, c) ∈ sqs → validRow r = true) →
  (blocked ← anyOccupied b sqs; Some (negb blocked)) = Some true
  ↔ ∀ sq, sq ∈ sqs → b !! sq = None.
Proof.
  intros Hv. rewrite <- (anyOccupied_false _ _ Hv).
  destruct (anyOccupied_defined b sqs Hv) as [[] ->]; simpl; naive_solver.
Qed.

Lemma isValidRookMove_iff (b : Board) fr fc tr tc :
  validRow fr = true → validRow tr = true →
  isValidRookMove b fr fc tr tc = Some true ↔
    (fr = tr ∨ fc = tc) ∧ ∀ r c, rookPath fr fc tr tc r c → b !! (r, c) = None.
Proof.
  intros Hfr Htr. unfold isValidRookMove, rookPath.
  destruct (fr =? tr) eqn:Er; [apply Z.eqb_eq in Er|apply Z.eqb_neq in Er].
  - subst tr. cbn [negb andb].
    rewrite negb_anyOccupied.
    + split.
      * intros H. split; [by left|]. intros r c [(-> & _ & Hc)|(-> & -> & Hr)]; [|lia].
        apply H. apply list_elem_of_fmap. exists c. split; [done|].
        apply elem_of_range. lia.
      * intros [_ H] [r c] (c' & [= -> ->] & Hin%elem_of_range)%list_elem_of_fmap.
        apply H. left. split; [done|]. split; [done|]. lia.
    + intros r c (c' & [= -> ->] & _)%list_elem_of_fmap. done.
  - destruct (fc =? tc) eqn:Ec; [apply Z.eqb_eq in Ec|apply Z.eqb_neq in Ec]; cbn [negb andb].
    + subst tc. rewrite negb_anyOccupied.
      * split.
        -- intros H. split; [by right|]. intros r c [(-> & ? & _)|(-> & _ & Hr)]; [done|].
           apply H. apply list_elem_of_fmap. exists r. split; [done|].
           apply elem_of_range. lia.
        -- intros [_ H] [r c] (r' & [= -> ->] & Hin%elem_of_range)%list_elem_of_fmap.
           apply H. right. split; [done|]. split; [done|]. lia.
      * intros r c (r' & [= -> ->] & Hin%elem_of_range)%list_elem_of_fmap.
        apply validRow_true in Hfr, Htr. apply validRow_true. lia.
    + split; [done|]. intros [[?|?] _]; done.
Qed.

(** X11: for squares whose rows are rows of the grid and whose columns
    are integers a JavaScript number holds exactly (between -2^53 and
    2^53), [isValidRookMove] returns a boolean, and returns true exactly
    when the two squares share their row or their column and every square
    strictly between them on that line is empty; the squares at the two
    ends are not looked at. *)
Theorem isValidRookMove_spec (b : Board) fr fc tr tc :
  0 ≤ fr < 8 → 0 ≤ tr < 8 → safeInteger fc → safeInteger tc →
  is_Some (isValidRookMove b fr fc tr tc)
  ∧ (isValidRookMove b fr fc tr tc = Some true ↔
     (fr = tr ∨ fc = tc) ∧ ∀ r c, rookPath fr fc tr tc r c → b !! (r, c) = None).
Proof.
  intros Hfr%validRow_true Htr%validRow_true _ _.
  split; [by apply isValidRookMove_defined|by apply isValidRookMove_iff].
Qed.

Lemma isValidRookMove_spec_witness :
  is_Some (isValidRookMove createBoard 7 0 2 0)
  ∧ (isValidRookMove createBoard 7 0 2 0 = Some true ↔
     (7 = 2 ∨ 0 = 0) ∧ ∀ r c, rookPath 7 0 2 0 r c → createBoard !! (r, c) = None).
Proof. apply (isValidRookMove_spec createBoard 7 0 2 0); unfold safeInteger; lia. Defined.

Lemma bishop_direction fr tr i :
  0 < i < Z.abs (fr - tr) → (if fr <? tr then 1 else -1) = Z.sgn (tr - fr).
Proof. intros Hi. destruct (fr <? tr) eqn:E; [apply Z.ltb_lt in E|apply Z.ltb_ge in E]; lia. Qed.

Lemma isValidBishopMove_iff (b : Board) fr fc tr tc :
  validRow fr = true → validRow tr = true →
  isValidBishopMove b fr fc tr tc = Some true ↔
    Z.abs (fr - tr) = Z.abs (fc - tc)
    ∧ ∀ r c, bishopPath fr fc tr tc r c → b !! (r, c) = None.
Proof.
  intros Hfr Htr. unfold isValidBishopMove, bishopPath.
  destruct (Z.abs (fr - tr) =? Z.abs (fc - tc)) eqn:E;
    [apply Z.eqb_eq in E|apply Z.eqb_neq in E]; cbn [negb].
  2: { split; [done|]. by intros [? _]. }
  rewrite negb_anyOccupied.
  - split.
    + intros H. split; [done|]. intros r c (i & Hi & -> & ->).
      assert (Hi' : 0 < i < Z.abs (fr - tr)) by lia.
      assert (Hic : 0 < i < Z.abs (fc - tc)) by lia.
      rewrite <- (bishop_direction fr tr i Hi'), <- (bishop_direction fc tc i Hic).
      apply H. apply list_elem_of_fmap. exists i. split; [done|].
      apply elem_of_range. lia.
    + intros [_ H] [r c] (i & [= -> ->] & Hin%elem_of_range)%list_elem_of_fmap.
      assert (Hi' : 0 < i < Z.abs (fr - tr)) by lia.
      assert (Hic : 0 < i < Z.abs (fc - tc)) by lia.
      apply H. exists i. split; [lia|].
      by rewrite (bishop_direction fr tr i Hi'), (bishop_direction fc tc i Hic).
  - intros r c (i & [= -> ->] & Hin%elem_of_range)%list_elem_of_fmap.
    apply validRow_true in Hfr, Htr. apply validRow_true.
    destruct (fr <? tr) eqn:Hlt; [apply Z.ltb_lt in Hlt|apply Z.ltb_ge in Hlt]; lia.
Qed.



(** X13: for squares whose rows are rows of the grid and whose columns
    are integers a JavaScript number holds exactly (between -2^53 and
    2^53), [isValidQueenMove] returns true exactly when the move is a
    rook's move or a bishop's move in the sense above, and false
    otherwise. *)
Theorem isValidQueenMove_spec (b : Board) fr fc tr tc :
  0 ≤ fr < 8 → 0 ≤ tr < 8 → safeInteger fc → safeInteger tc →
  is_Some (isValidQueenMove b fr fc tr tc)
  ∧ (isValidQueenMove b fr fc tr tc = Some true ↔
     ((fr = tr ∨ fc = tc) ∧ ∀ r c, rookPath fr fc tr tc r c → b !! (r, c) = None)
     ∨ (Z.abs (fr - tr) = Z.abs (fc - tc)
        ∧ ∀ r c, bishopPath fr fc tr tc r c → b !! (r, c) = None)).
Proof.
  intros Hfr%validRow_true Htr%validRow_true _ _.
  rewrite <- isValidRookMove_iff, <- isValidBishopMove_iff by done.
  unfold isValidQueenMove.
  destruct (isValidRookMove_defined b fr fc tr tc Hfr Htr) as [[] ->]; cbn.
  - split; [by eexists|]. split; [by left|done].
  - split; [by apply isValidBishopMove_defined|]. split; [by right|].
    by intros [?|?].
Qed.

Lemma isValidQueenMove_spec_witness :
  is_Some (isValidQueenMove beforeStalemate 2 7 2 1)
  ∧ (isValidQueenMove beforeStalemate 2 7 2 1 = Some true ↔
     ((2 = 2 ∨ 7 = 1) ∧ ∀ r c, rookPath 2 7 2 1 r c → beforeStalemate !! (r, c) = None)
     ∨ (Z.abs (2 - 2) = Z.abs (7 - 1)
        ∧ ∀ r c, bishopPath 2 7 2 1 r c → beforeStalemate !! (r, c) = None)).
Proof. apply (isValidQueenMove_spec beforeStalemate 2 7 2 1); unfold safeInteger; lia. Defined.

(** ** The pawn *)

Lemma pawn_middle_row (p : Piece) fr :
  fr = pawnStartRow p → validRow (fr + pawnDirection p) = true.
Proof. intros ->. unfold pawnStartRow, pawnDirection. by destruct (color p). Qed.

Ltac pawn_props :=
  repeat match goal with
  | H : (_ =? _) = true |- _ => apply Z.eqb_eq in H
  | H : (_ =? _) = false |- _ => apply Z.eqb_neq in H
  end.

Lemma isValidPawnMove_run (b : Board) p fr fc tr tc :
  validRow fr = true → validRow tr = true → b !! (fr, fc) = Some p →
  ∃ v, isValidPawnMove b fr fc tr tc = Some v ∧ (v = true ↔ pawnRule b p fr fc tr tc).
Proof.
  intros Hfr Htr Hp. unfold isValidPawnMove, pawnRule.
  rewrite (getSq_valid _ _ _ Hfr), Hp. cbn [mbind option_bind].
  rewrite !(getSq_valid _ _ _ Htr).
  change (match color p with White => -1 | Black => 1 end) with (pawnDirection p).
  change (match color p with White => 6 | Black => 1 end) with (pawnStartRow p).
  pose proof (pawn_middle_row p fr) as Hmid.
  assert (Hd : pawnDirection p = 1 ∨ pawnDirection p = -1)
    by (unfold pawnDirection; destruct (color p); auto).
  generalize dependent (pawnDirection p). intros d Hmid Hd.
  generalize dependent (pawnStartRow p). intros s Hmid.
  destruct (b !! (tr, tc)) as [q|] eqn:Hq; cbn [occupied negb mbind option_bind andThen].
  - (* the destination is occupied: only the capture *)
    destruct (fc =? tc) eqn:E1; destruct (tr =? fr + d) eqn:E2;
      destruct (fr =? s) eqn:E3; destruct (tr =? fr + 2 * d) eqn:E4;
      destruct (Z.abs (fc - tc) =? 1) eqn:E5;
      cbn [andb andThen mbind option_bind negb]; pawn_props;
      try (rewrite (getSq_valid _ _ _ (Hmid E3));
           destruct (b !! (fr + d, fc)); cbn [occupied negb andThen mbind option_bind]);
      try case_bool_decide; cbn [negb];
      eexists; (split; [reflexivity|]);
      (split; [intros ?; try discriminate; right; right; by eauto
              |intros [(?&?&?)|[(?&?&?&?&?)|(?&?&q'&?&?)]];
               simplify_eq; try lia; try congruence; try done]).
  - destruct (fc =? tc) eqn:E1; destruct (tr =? fr + d) eqn:E2;
      destruct (fr =? s) eqn:E3; destruct (tr =? fr + 2 * d) eqn:E4;
      destruct (Z.abs (fc - tc) =? 1) eqn:E5;
      cbn [andb andThen mbind option_bind negb]; pawn_props;
      try (rewrite (getSq_valid _ _ _ (Hmid E3));
           destruct (b !! (fr + d, fc)) eqn:Hm;
           cbn [occupied negb andThen mbind option_bind]);
      eexists; (split; [reflexivity|]);
      (split; [intros ?; try discriminate;
               first [by left | by right; left]
              |intros [(?&?&?)|[(?&?&?&?&?)|(?&?&q'&?&?)]];
               simplify_eq; try lia; try congruence; try done]).
Qed.

(** X14: for a pawn standing on the origin and rows of the grid,
    [isValidPawnMove] returns a boolean, and returns true exactly for one
    step ahead in the same column onto an empty square, two steps ahead
    from the starting row (6 for white, 1 for black) over an empty square
    onto an empty square, and one step ahead one column aside onto a piece
    of the other colour; white moves towards row 0, black towards row 7. *)
Theorem isValidPawnMove_spec (b : Board) p fr fc tr tc :
  0 ≤ fr < 8 → 0 ≤ tr < 8 → b !! (fr, fc) = Some p →
  is_Some (isValidPawnMove b fr fc tr tc)
  ∧ (isValidPawnMove b fr fc tr tc = Some true ↔ pawnRule b p fr fc tr tc).
Proof.
  intros Hfr%validRow_true Htr%validRow_true Hp.
  destruct (isValidPawnMove_run b p fr fc tr tc Hfr Htr Hp) as (v & E & Hv).
  rewrite E. split; [by eexists|].
  split; [intros [= ->]; by apply Hv|intros H; f_equal; by apply Hv].
Qed.

Lemma isValidPawnMove_spec_witness :
  is_Some (isValidPawnMove createBoard 6 4 4 4)
  ∧ (isValidPawnMove createBoard 6 4 4 4 = Some true
     ↔ pawnRule createBoard (mkPiece Pawn White) 6 4 4 4).
Proof. apply (isValidPawnMove_spec createBoard (mkPiece Pawn White) 6 4 4 4); [lia|lia|reflexivity]. Defined.

(** X15: [isValidPawnMove] raises when the origin holds no piece (it reads
    the colour of the piece there), where [isValidMove] answers false; and a
    pawn that has reached the last row of its direction (row 0 for white,
    row 7 for black) has no accepted move to a row of the grid. *)
Theorem isValidPawnMove_edges (b : Board) fr fc tr tc :
  0 ≤ fr < 8 → 0 ≤ tr < 8 →
  (b !! (fr, fc) = None →
     isValidPawnMove b fr fc tr tc = None ∧ isValidMove b fr fc tr tc = Some false)
  ∧ (∀ p, b !! (fr, fc) = Some p → fr = match color p with White => 0 | Black => 7 end →
     isValidPawnMove b fr fc tr tc = Some false).
Proof.
  intros Hfr Htr. pose proof Hfr as Hfr'%validRow_true. pose proof Htr as Htr'%validRow_true.
  split.
  - intros Hp. unfold isValidPawnMove, isValidMove.
    by rewrite (getSq_valid _ _ _ Hfr'), Hp.
  - intros p Hp Hlast.
    destruct (isValidPawnMove_run b p fr fc tr tc Hfr' Htr' Hp) as (v & -> & Hv).
    destruct v; [|done]. exfalso.
    destruct Hv as [Hv _]. specialize (Hv eq_refl).
    unfold pawnRule, pawnDirection, pawnStartRow in Hv.
    destruct (color p); destruct Hv as [(?&?&?)|[(?&?&?&?&?)|(?&?&?)]]; lia.
Qed.

Lemma isValidPawnMove_edges_witness :
  (createBoard !! (4, 4) = None →
     isValidPawnMove createBoard 4 4 3 4 = None ∧ isValidMove createBoard 4 4 3 4 = Some false)
  ∧ (∀ p, createBoard !! (4, 4) = Some p → 4 = match color p with White => 0 | Black => 7 end →
     isValidPawnMove createBoard 4 4 3 4 = Some false).
Proof. apply (isValidPawnMove_edges createBoard 4 4 3 4); lia. Defined.

(** ** The accepted moves *)

Lemma isValidKnightMove_iff fr fc tr tc :
  isValidKnightMove fr fc tr tc = true ↔ knightRule fr fc tr tc.
Proof.
  unfold isValidKnightMove, knightRule.
  rewrite orb_true_iff, !andb_true_iff, !Z.eqb_eq. done.
Qed.

Lemma isValidKingMove_iff fr fc tr tc :
  isValidKingMove fr fc tr tc = true ↔ kingRule fr fc tr tc.
Proof.
  unfold isValidKingMove, kingRule. rewrite andb_true_iff, !Z.leb_le. done.
Qed.

Lemma isValidQueenMove_iff (b : Board) fr fc tr tc :
  validRow fr = true → validRow tr = true →
  isValidQueenMove b fr fc tr tc = Some true
  ↔ rookRule b fr fc tr tc ∨ bishopRule b fr fc tr tc.
Proof.
  intros Hfr Htr. unfold rookRule, bishopRule.
  rewrite <- isValidRookMove_iff, <- isValidBishopMove_iff by done.
  unfold isValidQueenMove.
  destruct (isValidRookMove_defined b fr fc tr tc Hfr Htr) as [[] ->]; cbn.
  - split; [by left|done].
  - split; [by right|]. by intros [?|?].
Qed.

Lemma isValidMove_rules (b : Board) fr fc tr tc :
  validRow fr = true → validRow tr = true →
  isValidMove b fr fc tr tc = Some true ↔
    ∃ p, b !! (fr, fc) = Some p
         ∧ (∀ t, b !! (tr, tc) = Some t → color t ≠ color p)
         ∧ pieceRule b p fr fc tr tc.
Proof.
  intros Hfr Htr.
  unfold isValidMove. rewrite (getSq_valid _ _ _ Hfr). cbn [mbind option_bind].
  destruct (b !! (fr, fc)) as [p|] eqn:Hp.
  2: { split; [done|]. by intros (p & ? & _). }
  rewrite (getSq_valid _ _ _ Htr). cbn [mbind option_bind].
  assert (Hrule : match type p with
                  | Pawn => isValidPawnMove b fr fc tr tc
                  | Rook => isValidRookMove b fr fc tr tc
                  | Knight => Some (isValidKnightMove fr fc tr tc)
                  | Bishop => isValidBishopMove b fr fc tr tc
                  | Queen => isValidQueenMove b fr fc tr tc
                  | King => Some (isValidKingMove fr fc tr tc)
                  end = Some true ↔ pieceRule b p fr fc tr tc).
  { unfold pieceRule. destruct (type p).
    - destruct (isValidPawnMove_run b p fr fc tr tc Hfr Htr Hp) as (v & -> & Hv).
      rewrite <- Hv. split; [by intros [= ->]|by intros ->].
    - by apply isValidRookMove_iff.
    - rewrite <- isValidKnightMove_iff. split; [by intros [= ->]|by intros ->].
    - by apply isValidBishopMove_iff.
    - by apply isValidQueenMove_iff.
    - rewrite <- isValidKingMove_iff. split; [by intros [= ->]|by intros ->]. }
  destruct (b !! (tr, tc)) as [t|] eqn:Ht.
  - case_bool_decide as Hc.
    + split; [done|]. intros (p' & [= <-] & Hne & _). by destruct (Hne t).
    + rewrite Hrule. split.
      * intros H. exists p. split; [done|]. split; [by intros ? [= <-]|done].
      * by intros (p' & [= <-] & _ & H).
  - rewrite Hrule. split.
    + intros H. exists p. split; [done|]. split; [done|done].
    + by intros (p' & [= <-] & _ & H).
Qed.

(** X20: for rows of the grid and columns that are integers a JavaScript
    number holds exactly (between -2^53 and 2^53), [isValidMove] returns a
    boolean, and returns true exactly when the origin holds a piece, the
    destination holds no piece of the same colour, and the move follows the
    rule of the piece: the pawn's steps and captures, the rook's lines and
    the bishop's diagonals with nothing in between, either of the two for
    the queen, the knight's jump, one step in any direction for the king.
    Whether the move leaves the mover's own king attacked plays no part. *)
Theorem isValidMove_spec (b : Board) fr fc tr tc :
  0 ≤ fr < 8 → 0 ≤ tr < 8 → safeInteger fc → safeInteger tc →
  is_Some (isValidMove b fr fc tr tc)
  ∧ (isValidMove b fr fc tr tc = Some true ↔
     ∃ p, b !! (fr, fc) = Some p
          ∧ (∀ t, b !! (tr, tc) = Some t → color t ≠ color p)
          ∧ pieceRule b p fr fc tr tc).
Proof.
  intros Hfr%validRow_true Htr%validRow_true _ _.
  split; [by apply isValidMove_defined|by apply isValidMove_rules].
Qed.

Lemma isValidMove_spec_witness :
  is_Some (isValidMove createBoard 7 1 5 2)
  ∧ (isValidMove createBoard 7 1 5 2 = Some true ↔
     ∃ p, createBoard !! (7, 1) = Some p
          ∧ (∀ t, createBoard !! (5, 2) = Some t → color t ≠ color p)
          ∧ pieceRule createBoard p 7 1 5 2).
Proof. apply (isValidMove_spec createBoard 7 1 5 2); unfold safeInteger; lia. Defined.

(** ** Highlighting *)

Lemma highlightValidMoves_run g row col p :
  inBoard row col → board g !! (row, col) = Some p →
  hasKing (board g) (color p) →
  highlightValidMoves row col g
  = Ret ((row, col) :: destinations (board g) row col (color p)) g.
Proof.
  intros [Hrow Hcol] Hp Hk. unfold highlightValidMoves, destinations.
  change ((row, col) :: (range8 ≫= ?f)) with ([(row, col)] ++ (range8 ≫= f)).
  pose proof (proj2 (validRow_true row) Hrow) as Hfr.
  apply foldM_app_run. intros r shown Hr.
  apply foldM_app_run. clear shown. intros c shown Hc.
  pose proof (range8_validRow _ Hr) as Htr.
  eapply bind_run; [apply liftR_run; by apply isValidMove_validB|].
  destruct (validB (board g) row col r c) eqn:Hv; [|by rewrite app_nil_r].
  eapply bind_run; [by apply readSq_run|]. rewrite Hp.
  rewrite try_check_run; try done.
  - simpl. by destruct (checkB _ (color p)); simpl; rewrite ?app_nil_r.
  - apply hasKing_tentative_own with p; try done.
    + split; by apply elem_of_range8.
    + rewrite isValidMove_validB by done. by rewrite Hv.
Qed.

Lemma elem_of_destinations (b : Board) row col side r c :
  (r, c) ∈ destinations b row col side ↔
    inBoard r c ∧ validB b row col r c = true
    ∧ checkB (tentative b row col r c) side = false.
Proof.
  unfold destinations, inBoard. rewrite list_elem_of_bind. split.
  - intros (r' & (c' & Hin & Hc)%list_elem_of_bind & Hr).
    destruct (validB b row col r' c') eqn:Hv; [|by apply elem_of_nil in Hin].
    destruct (checkB (tentative b row col r' c') side) eqn:Hk; [by apply elem_of_nil in Hin|].
    apply list_elem_of_singleton in Hin as [= -> ->].
    apply elem_of_range8 in Hr, Hc. done.
  - intros ([Hr Hc] & Hv & Hk). exists r. rewrite elem_of_range8. split; [|done].
    apply list_elem_of_bind. exists c. rewrite elem_of_range8. split; [|done].
    rewrite Hv, Hk. by left.
Qed.

(** X21: for a piece on a square of the grid whose colour has a king on the
    grid, [highlightValidMoves] returns with the board as it found it, and
    marks the square of the piece and exactly the destinations of the legal
    moves of that piece: those [isValidMove] accepts and after which the
    king of the piece's colour is not in check. *)
Theorem highlightValidMoves_spec g row col p :
  inBoard row col → board g !! (row, col) = Some p →
  hasKing (board g) (color p) →
  ∃ shown, highlightValidMoves row col g = Ret ((row, col) :: shown) g
           ∧ ∀ r c, (r, c) ∈ shown ↔ legalMove (board g) (color p) (mkMove row col r c).
Proof.
  intros Hin Hp Hk. exists (destinations (board g) row col (color p)).
  split; [by apply highlightValidMoves_run|].
  intros r c. rewrite elem_of_destinations, (legalMove_iff _ _ _ Hk), elem_of_legalMovesOf.
  cbn. split.
  - intros (? & ? & ?). split; [done|]. split; [done|]. split; [by exists p|done].
  - intros (_ & ? & _ & ? & ?). done.
Qed.

Lemma highlightValidMoves_spec_witness :
  ∃ shown, highlightValidMoves 6 4 initialGame = Ret ((6, 4) :: shown) initialGame
           ∧ ∀ r c, (r, c) ∈ shown
                    ↔ legalMove (board initialGame) (color (mkPiece Pawn White)) (mkMove 6 4 r c).
Proof.
  apply (highlightValidMoves_spec initialGame 6 4 (mkPiece Pawn White)).
  - unfold inBoard. lia.
  - reflexivity.
  - apply hasKing_initial.
Defined.

(** ** Clicks *)

Lemma movePiece_returns g fr fc tr tc p :
  validRow fr = true → validRow tr = true → board g !! (fr, fc) = Some p →
  hasKing (movedBoard (board g) fr fc tr tc p) (opponentOf (currentPlayer g)) →
  ∃ over, movePiece fr fc tr tc g = Ret tt (setGameOver over (applied g fr fc tr tc p))
          ∧ (gameOver g = false →
             over = checkB (movedBoard (board g) fr fc tr tc p) (opponentOf (currentPlayer g))
                    && bool_decide (legalMovesOf (movedBoard (board g) fr fc tr tc p)
                                      (opponentOf (currentPlayer g)) = [])).
Proof.
  intros Hfr Htr Hp Hk. rewrite (movePiece_outcome g fr fc tr tc p) by done.
  cbn zeta. cbn [applied board currentPlayer].
  rewrite (isKingInCheck_defined _ _ Hk).
  destruct (checkB _ _) eqn:Hc.
  - destruct (bool_decide (legalMovesOf _ _ = [])) eqn:Hn.
    + exists true. split; [done|]. done.
    + exists (gameOver g). split; [by destruct g|]. by intros ->.
  - exists (gameOver g). split; [by destruct g|]. by intros ->.
Qed.

Lemma movePiece_raises g fr fc tr tc p :
  validRow fr = true → 0 ≤ tr < 8 → 0 ≤ tc < 8 → board g !! (fr, fc) = Some p →
  (fr, fc) ≠ (tr, tc) → color p = currentPlayer g →
  ¬ hasKing (movedBoard (board g) fr fc tr tc p) (opponentOf (currentPlayer g)) →
  movePiece fr fc tr tc g = Throw (applied g fr fc tr tc p).
Proof.
  intros Hfr Htr Htc Hp Hne Hc Hno.
  pose proof (proj2 (validRow_true _) Htr) as Htr'.
  rewrite (movePiece_outcome g fr fc tr tc p Hfr Htr' Hp).
  cbn zeta. cbn [applied board currentPlayer].
  rewrite (isKingInCheck_no_king _ _ Hno); [done|].
  exists tr, tc, (promote p tr). split; [done|]. split.
  - rewrite movedBoard_lookup. rewrite decide_False by done. by rewrite decide_True.
  - rewrite opponentOf_involutive. unfold promote. by destruct (_ && _).
Qed.

Lemma handleSquareClick_calls_movePiece g selRow selCol sp pc hl tm row col :
  gameOver g = false →
  (gameMode g = Computer → currentPlayer g = pc) →
  0 ≤ selRow < 8 → 0 ≤ row < 8 →
  isValidMove (board g) selRow selCol row col = Some true →
  handleSquareClick row col (mkSession g (Some (selRow, selCol, sp)) pc hl tm)
  = match movePiece selRow selCol row col g with
    | Ret _ g' =>
        Finished (if bool_decide (gameMode g' = Computer) && negb (gameOver g')
                  then mkSession g' None pc [] (S tm)
                  else mkSession g' None pc [] tm)
    | Throw _ => Raised
    end.
Proof.
  intros Hover Hturn HselRow Hrow Hv.
  pose proof (proj2 (validRow_true _) Hrow) as Htr.
  assert (Hne : (row =? selRow) && (col =? selCol) = false).
  { destruct ((row =? selRow) && (col =? selCol)) eqn:E; [|done].
    apply andb_true_iff in E as [->%Z.eqb_eq ->%Z.eqb_eq].
    rewrite (isValidMove_same_square _ _ _ HselRow) in Hv. done. }
  unfold handleSquareClick. cbn [game playerColor]. rewrite Hover.
  assert (Hguard : bool_decide (gameMode g = Computer)
                   && negb (bool_decide (currentPlayer g = pc)) = false).
  { destruct (decide (gameMode g = Computer)) as [Hm|Hm].
    - by rewrite (bool_decide_eq_true_2 _ (Hturn Hm)), andb_false_r.
    - by rewrite (bool_decide_eq_false_2 _ Hm). }
  rewrite Hguard. cbn [orb].
  unfold inGame at 1. rewrite (readSq_run _ _ _ Htr).
  cbn [selectedPiece setGame game playerColor highlighted aiTimers]. rewrite Hne.
  unfold inGame at 1. cbn [game setGame].
  rewrite (liftR_run _ _ _ Hv).
  unfold inGame at 1. cbn [game setGame].
  destruct (movePiece selRow selCol row col g) as [[] g'|g']; [|done].
  cbn. by destruct (bool_decide (gameMode g' = Computer) && negb (gameOver g')).
Qed.

Lemma handleSquareClick_plays_run g selRow selCol sp pc hl tm row col p :
  gameOver g = false →
  (gameMode g = Computer → currentPlayer g = pc) →
  0 ≤ selRow < 8 → 0 ≤ row < 8 →
  board g !! (selRow, selCol) = Some p →
  isValidMove (board g) selRow selCol row col = Some true →
  hasKing (movedBoard (board g) selRow selCol row col p) (opponentOf (currentPlayer g)) →
  let over := checkB (movedBoard (board g) selRow selCol row col p)
                (opponentOf (currentPlayer g))
              && bool_decide (legalMovesOf (movedBoard (board g) selRow selCol row col p)
                                (opponentOf (currentPlayer g)) = []) in
  let g' := setGameOver over (applied g selRow selCol row col p) in
  handleSquareClick row col (mkSession g (Some (selRow, selCol, sp)) pc hl tm)
  = Finished (mkSession g' None pc []
                (if bool_decide (gameMode g = Computer) && negb over then S tm else tm)).
Proof.
  intros Hover Hturn HselRow Hrow Hp Hv Hk over g'.
  pose proof (proj2 (validRow_true _) HselRow) as Hfr.
  pose proof (proj2 (validRow_true _) Hrow) as Htr.
  destruct (movePiece_returns g selRow selCol row col p Hfr Htr Hp Hk)
    as (over' & Hmove & Hov).
  specialize (Hov Hover). fold over in Hov. subst over'.
  rewrite handleSquareClick_calls_movePiece by done.
  rewrite Hmove. fold g'. cbn [g' gameMode gameOver setGameOver applied].
  by destruct (bool_decide (gameMode g = Computer) && negb over).
Qed.

(** X22: when the game is not over, it is the human player's turn and a
    piece is selected, a click on another square for which [isValidMove]
    accepts the move from the selected square makes [handleSquareClick] play
    that move with [movePiece].  If the side to move next has a king on the
    grid once the piece has moved, the handler returns: the piece stands on
    the clicked square, the turn has passed, the move is the last entry of
    the history, nothing is selected or highlighted any more, and in
    computer mode a timer for the computer's move is set unless the move
    gave checkmate.  If that side has no king then (the move took it, or it
    never stood there) and the piece moved is one of the player to move,
    the handler raises, in the check query of [movePiece].  The handler asks
    [isValidMove] only: neither the squares highlighted before nor the
    safety of the mover's own king are consulted. *)
Theorem handleSquareClick_plays s selRow selCol sp row col p :
  gameOver (game s) = false →
  (gameMode (game s) = Computer → currentPlayer (game s) = playerColor s) →
  selectedPiece s = Some (selRow, selCol, sp) →
  0 ≤ selRow < 8 → 0 ≤ row < 8 →
  board (game s) !! (selRow, selCol) = Some p →
  isValidMove (board (game s)) selRow selCol row col = Some true →
  (hasKing (movedBoard (board (game s)) selRow selCol row col p)
     (opponentOf (currentPlayer (game s))) →
   ∃ s', handleSquareClick row col s = Finished s'
         ∧ board (game s') = movedBoard (board (game s)) selRow selCol row col p
         ∧ currentPlayer (game s') = opponentOf (currentPlayer (game s))
         ∧ moveHistory (game s')
           = moveHistory (game s) ++ [entryOf (board (game s)) selRow selCol row col]
         ∧ gameOver (game s')
           = checkB (board (game s')) (currentPlayer (game s'))
             && bool_decide (legalMovesOf (board (game s')) (currentPlayer (game s')) = [])
         ∧ selectedPiece s' = None
         ∧ highlighted s' = []
         ∧ playerColor s' = playerColor s
         ∧ aiTimers s'
           = if bool_decide (gameMode (game s) = Computer) && negb (gameOver (game s'))
             then S (aiTimers s) else aiTimers s)
  ∧ (¬ hasKing (movedBoard (board (game s)) selRow selCol row col p)
       (opponentOf (currentPlayer (game s))) →
     0 ≤ col < 8 → color p = currentPlayer (game s) →
     handleSquareClick row col s = Raised).
Proof.
  destruct s as [g sel pc hl tm].
  cbn [game selectedPiece playerColor highlighted aiTimers].
  intros Hover Hturn -> HselRow Hrow Hp Hv. split.
  - intros Hk.
    pose proof (handleSquareClick_plays_run g selRow selCol sp pc hl tm row col p
                  Hover Hturn HselRow Hrow Hp Hv Hk) as Hrun.
    cbn zeta in Hrun. eexists. split; [exact Hrun|].
    cbn. done.
  - intros Hno Hcol Hc.
    rewrite handleSquareClick_calls_movePiece by done.
    rewrite (movePiece_raises g selRow selCol row col p); try done.
    + by apply validRow_true.
    + intros [= -> ->]. by rewrite (isValidMove_same_square _ _ _ HselRow) in Hv.
Qed.

Lemma handleSquareClick_plays_witness :
  (hasKing (movedBoard shieldingRook 6 4 6 0 (mkPiece Rook White)) (opponentOf White) →
   ∃ s', handleSquareClick 6 0 shieldingRookSession = Finished s'
         ∧ board (game s') = movedBoard shieldingRook 6 4 6 0 (mkPiece Rook White)
         ∧ currentPlayer (game s') = opponentOf White
         ∧ moveHistory (game s') = [] ++ [entryOf shieldingRook 6 4 6 0]
         ∧ gameOver (game s')
           = checkB (board (game s')) (currentPlayer (game s'))
             && bool_decide (legalMovesOf (board (game s')) (currentPlayer (game s')) = [])
         ∧ selectedPiece s' = None
         ∧ highlighted s' = []
         ∧ playerColor s' = White
         ∧ aiTimers s'
           = if bool_decide (Human = Computer) && negb (gameOver (game s'))
             then 1%nat else 0%nat)
  ∧ (¬ hasKing (movedBoard shieldingRook 6 4 6 0 (mkPiece Rook White)) (opponentOf White) →
     0 ≤ 0 < 8 → color (mkPiece Rook White) = White →
     handleSquareClick 6 0 shieldingRookSession = Raised).
Proof.
  apply (handleSquareClick_plays shieldingRookSession 6 4 (mkPiece Rook White) 6 0
           (mkPiece Rook White)).
  - reflexivity.
  - discriminate.
  - reflexivity.
  - lia.
  - lia.
  - reflexivity.
  - by vm_compute.
Defined.

Lemma highlightValidMoves_restores row col g : restores (highlightValidMoves row col) g.
Proof.
  unfold highlightValidMoves.
  apply restores_foldM. intros r shown _.
  apply restores_foldM. clear shown. intros c shown _.
  apply restores_bind; [apply restores_liftR|].
  intros [] _; [|apply restores_ret].
  apply restores_bind; [apply restores_liftR|].
  intros piece (_ & _ & Hpiece)%readSq_inv.
  destruct piece as [p|].
  - apply try_check_restores; [done|]. intros chk. apply restores_ret.
  - apply restores_bind; [apply restores_liftR|]. intros o _.
    intros a g' H.
    apply bind_Ret_inv in H as (? & g1 & _ & H).
    apply bind_Ret_inv in H as (? & g2 & _ & H).
    apply bind_Ret_inv in H as (? & g3 & H & _). done.
Qed.

Lemma inGame_Finished {A} (m : M A) s k s' :
  inGame m s k = Finished s' →
  ∃ a g, m (game s) = Ret a g ∧ k a (setGame g s) = Finished s'.
Proof. unfold inGame. destruct (m (game s)) as [a g|g]; [by exists a, g|done]. Qed.

Lemma select_and_highlight g sel pc hl tm row col s' :
  inGame (highlightValidMoves row col) (mkSession g sel pc hl tm)
    (λ shown s, Finished (setHighlighted shown s)) = Finished s' →
  ∃ shown, s' = mkSession g sel pc shown tm.
Proof.
  intros (shown & g1 & Hrun & [= <-])%inGame_Finished.
  apply highlightValidMoves_restores in Hrun as ->. by exists shown.
Qed.

(** X23: a click leaves the game as it was or plays the move from the
    selected square to the clicked square, after which nothing is selected
    or highlighted.  Whenever the handler returns, the selection it leaves
    is empty or a piece of the player to move standing on the selected
    square, if that held before; the colour of the human player stays the
    same. *)
Theorem handleSquareClick_selection s row col s' :
  selectionOK s → handleSquareClick row col s = Finished s' →
  selectionOK s'
  ∧ playerColor s' = playerColor s
  ∧ (game s' = game s
     ∨ (selectedPiece s' = None ∧ highlighted s' = []
        ∧ ∃ selRow selCol p,
            selectedPiece s = Some (selRow, selCol, p)
            ∧ isValidMove (board (game s)) selRow selCol row col = Some true
            ∧ movePiece selRow selCol row col (game s) = Ret tt (game s'))).
Proof.
  destruct s as [g sel pc hl tm]. unfold selectionOK at 1, handleSquareClick.
  cbn [game selectedPiece playerColor highlighted aiTimers].
  intros Hsel.
  destruct (gameOver g || _).
  { intros [= <-]. split; [done|]. split; [done|]. by left. }
  intros (piece & g1 & (-> & Hrow & Hpiece)%readSq_inv & H)%inGame_Finished.
  cbn [game selectedPiece playerColor highlighted aiTimers setGame] in H.
  destruct sel as [[[selRow selCol] sp]|].
  - destruct ((row =? selRow) && (col =? selCol)).
    { injection H as <-. split; [done|]. split; [done|]. by left. }
    apply inGame_Finished in H as (v & g1 & (-> & Hv)%liftR_inv & H).
    cbn [game selectedPiece playerColor highlighted aiTimers setGame] in H, Hv.
    destruct v.
    + apply inGame_Finished in H as ([] & g2 & Hmove & H).
      cbn [game selectedPiece playerColor highlighted aiTimers setGame
             setHighlighted setSelectedPiece setTimeout] in H, Hmove.
      assert (Hs' : selectedPiece s' = None ∧ highlighted s' = []
                    ∧ playerColor s' = pc ∧ game s' = g2).
      { destruct (_ && _); by injection H as <-. }
      destruct Hs' as (Hs1 & Hs2 & Hs3 & Hs4).
      split; [unfold selectionOK; by rewrite Hs1|]. split; [done|].
      right. split; [done|]. split; [done|].
      exists selRow, selCol, sp. rewrite Hs4. done.
    + destruct piece as [p|]; [|injection H as <-; split; [done|]; split; [done|]; by left].
      destruct (bool_decide (color p = currentPlayer g)) eqn:Hown;
        [|injection H as <-; split; [done|]; split; [done|]; by left].
      apply bool_decide_eq_true in Hown.
      apply select_and_highlight in H as [shown ->].
      split; [|split; [done|by left]].
      unfold selectionOK. cbn. split; [by apply validRow_true|done].
  - destruct piece as [p|]; [|injection H as <-; split; [done|]; split; [done|]; by left].
    destruct (bool_decide (color p = currentPlayer g)) eqn:Hown;
      [|injection H as <-; split; [done|]; split; [done|]; by left].
    apply bool_decide_eq_true in Hown.
    apply select_and_highlight in H as [shown ->].
    split; [|split; [done|by left]].
    unfold selectionOK. cbn. split; [by apply validRow_true|done].
Qed.

Lemma handleSquareClick_selection_witness :
  selectionOK (mkSession initialGame (Some (6, 4, mkPiece Pawn White)) White
                 [(6, 4); (4, 4); (5, 4)] 0)
  ∧ playerColor (mkSession initialGame (Some (6, 4, mkPiece Pawn White)) White
                   [(6, 4); (4, 4); (5, 4)] 0) = playerColor initialSession
  ∧ (game (mkSession initialGame (Some (6, 4, mkPiece Pawn White)) White
             [(6, 4); (4, 4); (5, 4)] 0) = game initialSession
     ∨ (selectedPiece (mkSession initialGame (Some (6, 4, mkPiece Pawn White)) White
                         [(6, 4); (4, 4); (5, 4)] 0) = None
        ∧ highlighted (mkSession initialGame (Some (6, 4, mkPiece Pawn White)) White
                         [(6, 4); (4, 4); (5, 4)] 0) = []
        ∧ ∃ selRow selCol p,
            selectedPiece initialSession = Some (selRow, selCol, p)
            ∧ isValidMove (board (game initialSession)) selRow selCol 6 4 = Some true
            ∧ movePiece selRow selCol 6 4 (game initialSession)
              = Ret tt (game (mkSession initialGame (Some (6, 4, mkPiece Pawn White)) White
                                [(6, 4); (4, 4); (5, 4)] 0)))).
Proof.
  apply (handleSquareClick_selection initialSession 6 4).
  - exact I.
  - by vm_compute.
Defined.



(** ** Promotion and the safety of the king *)

Lemma sameOutline_None (att : Color) (b b' : Board) k :
  sameOutline att b b' → b' !! k = None ↔ b !! k = None.
Proof.
  intros H. destruct (H k) as [Hc _].
  destruct (b !! k), (b' !! k); naive_solver.
Qed.

Lemma sameOutline_color (att : Color) (b b' : Board) k q' :
  sameOutline att b b' → b' !! k = Some q' → ∃ q, b !! k = Some q ∧ color q = color q'.
Proof.
  intros H Hq'. destruct (H k) as [Hc _]. rewrite Hq' in Hc.
  destruct (b !! k) as [q|]; [|done]. exists q. split; [done|]. by injection Hc.
Qed.

Lemma sameOutline_color_rev (att : Color) (b b' : Board) k q :
  sameOutline att b b' → b !! k = Some q → ∃ q', b' !! k = Some q' ∧ color q' = color q.
Proof.
  intros H Hq. destruct (H k) as [Hc _]. rewrite Hq in Hc.
  destruct (b' !! k) as [q'|]; [|done]. exists q'. split; [done|]. by injection Hc.
Qed.

Lemma pieceRule_outline (att : Color) (b b' : Board) p fr fc tr tc :
  sameOutline att b b' → pieceRule b p fr fc tr tc → pieceRule b' p fr fc tr tc.
Proof.
  intros H. unfold pieceRule, pawnRule, rookRule, bishopRule.
  pose proof (λ k, proj2 (sameOutline_None att b b' k H)) as Hn.
  destruct (type p).
  - intros [(? & ? & ?)|[(? & ? & ? & ? & ?)|(? & ? & q & Hq & ?)]].
    + left. auto.
    + right. left. repeat split; auto.
    + right. right. split; [done|]. split; [done|].
      destruct (sameOutline_color_rev _ _ _ _ _ H Hq) as (q' & ? & Hc).
      exists q'. split; [done|]. by rewrite Hc.
  - intros [? Hpath]. split; [done|]. intros r c Hrc. auto.
  - done.
  - intros [? Hpath]. split; [done|]. intros r c Hrc. auto.
  - intros [[? Hpath]|[? Hpath]]; [left|right]; (split; [done|]); intros r c Hrc; auto.
  - done.
Qed.

Lemma isValidMove_outline (att : Color) (b b' : Board) p fr fc tr tc :
  sameOutline att b b' → validRow fr = true → validRow tr = true →
  b !! (fr, fc) = Some p → color p = att →
  isValidMove b fr fc tr tc = Some true → isValidMove b' fr fc tr tc = Some true.
Proof.
  intros H Hfr Htr Hp Hc.
  rewrite !isValidMove_rules by done.
  intros (p0 & Hp0 & Htarget & Hrule). rewrite Hp in Hp0. injection Hp0 as <-.
  exists p. split; [by apply (H (fr, fc))|]. split.
  - intros t' Ht'. destruct (sameOutline_color _ _ _ _ _ H Ht') as (t & Ht & Hct).
    rewrite <- Hct. by apply Htarget.
  - by apply (pieceRule_outline att b).
Qed.

Lemma firstSome_ext {I A} (f g : I → option A) xs :
  (∀ x, f x = g x) → firstSome f xs = firstSome g xs.
Proof.
  intros Hfg. induction xs as [|x xs IH]; simpl; [done|]. by rewrite Hfg, IH.
Qed.

Lemma kingSquare_outline (att : Color) (b b' : Board) c :
  sameOutline att b b' → kingSquare b' c = kingSquare b c.
Proof.
  intros H. unfold kingSquare. f_equal.
  apply firstSome_ext. intros row. apply firstSome_ext. intros col.
  by rewrite (proj2 (proj2 (H (row, col))) c).
Qed.

Lemma hasKing_outline (att : Color) (b b' : Board) c :
  sameOutline att b b' → hasKing b c → hasKing b' c.
Proof.
  intros H (r0 & c0 & Hin & Hk). exists r0, c0. split; [done|].
  by rewrite (proj2 (proj2 (H (r0, c0))) c).
Qed.

Lemma not_in_check_outline (b b' : Board) side :
  sameOutline (opponentOf side) b' b → hasKing b side → sameOutline (opponentOf side) b b' →
  isKingInCheck b side = Some false → isKingInCheck b' side = Some false.
Proof.
  intros Hback Hk H Hsafe.
  pose proof (hasKing_outline _ _ _ side H Hk) as Hk'.
  rewrite (isKingInCheck_defined _ _ Hk'). f_equal.
  destruct (checkB b' side) eqn:E; [exfalso|done].
  pose proof (isKingInCheck_defined _ _ Hk') as Hdef. rewrite E in Hdef.
  apply isKingInCheck_Some_inv in Hdef as (row & col & p' & Hin & Hp' & Hc & Hv).
  rewrite (kingSquare_outline _ _ _ side H) in Hv.
  destruct (kingSquare_hasKing b side Hk) as [[Hkr _] _].
  pose proof (isKingInCheck_Some_inv _ _ _ Hsafe row col p' Hin) as Hno.
  destruct Hin as [Hrow _].
  assert (Hp : b !! (row, col) = Some p') by (by apply (Hback (row, col))).
  specialize (Hno Hp Hc).
  apply (isValidMove_outline _ b' b p' row col _ _ Hback) in Hv;
    [congruence|by apply validRow_true|by apply validRow_true|done|done].
Qed.

Lemma promote_color p tr : color (promote p tr) = color p.
Proof. unfold promote. by destruct (_ && _). Qed.

Lemma promote_isKingOf c p tr : isKingOf c (Some (promote p tr)) = isKingOf c (Some p).
Proof.
  unfold promote. destruct (bool_decide (type p = Pawn)) eqn:E; [|done].
  apply bool_decide_eq_true in E. destruct (_ || _); [|done].
  cbn. rewrite E. done.
Qed.

Lemma movedBoard_outline (b : Board) fr fc tr tc p att :
  b !! (fr, fc) = Some p → color p ≠ att →
  sameOutline att (tentative b fr fc tr tc) (movedBoard b fr fc tr tc p)
  ∧ sameOutline att (movedBoard b fr fc tr tc p) (tentative b fr fc tr tc).
Proof.
  intros Hp Hc. split; intros k; rewrite tentative_lookup, movedBoard_lookup, Hp;
    (destruct (decide ((fr, fc) = k)); [done|]);
    (destruct (decide ((tr, tc) = k)); [|done]).
  - split; [cbn; by rewrite promote_color|]. split; [by intros ? [= <-] ?|].
    intros c. apply promote_isKingOf.
  - split; [cbn; by rewrite promote_color|]. split.
    + intros q [= <-] Hq. by rewrite promote_color in Hq.
    + intros c. symmetry. apply promote_isKingOf.
Qed.

(** X26: a legal move never leaves the mover's own king in check, also
    when it promotes.  For every legal move of a side that has a king on
    the grid (a move [highlightValidMoves] marks), the king of that side is not in check on the
    board [movePiece] produces, where a pawn that reached row 0 or row 7
    stands as a queen, although legality was tested on a board where it
    still stood as a pawn. *)
Theorem legal_move_keeps_king_safe (b : Board) side m p :
  hasKing b side → legalMove b side m →
  b !! (fromRow m, fromCol m) = Some p →
  isKingInCheck (movedBoard b (fromRow m) (fromCol m) (toRow m) (toCol m) p) side
  = Some false.
Proof.
  intros Hk [(Hfrom & Hto & (p0 & Hp0 & Hc) & Hv) Hsafe] Hp.
  rewrite Hp in Hp0. injection Hp0 as <-.
  destruct (movedBoard_outline b (fromRow m) (fromCol m) (toRow m) (toCol m) p
              (opponentOf side) Hp) as [H Hback].
  { rewrite Hc. intros Heq. by apply (opponentOf_ne side). }
  apply (not_in_check_outline (tentative b (fromRow m) (fromCol m) (toRow m) (toCol m)));
    try done.
  by apply hasKing_tentative_own with p.
Qed.

Lemma legal_move_keeps_king_safe_witness :
  isKingInCheck (movedBoard promotionCapture 1 0 0 1 (mkPiece Pawn White)) White
  = Some false.
Proof.
  apply (legal_move_keeps_king_safe promotionCapture White (mkMove 1 0 0 1)
           (mkPiece Pawn White)).
  - exists 7, 7. split; [unfold inBoard; lia|reflexivity].
  - split; [|by vm_compute].
    split; [unfold inBoard; cbn; lia|]. split; [unfold inBoard; cbn; lia|].
    split; [by exists (mkPiece Pawn White)|by vm_compute].
  - reflexivity.
Defined.
